(** * color.sophia: the game progression engine of [src/App.tsx]

    A shallow embedding of the React component's game logic: colour
    generation ([generateColor]), round construction ([nextLevel]), the
    event handlers ([startGame], [handleBlockClick]), the countdown
    callback and the best-score effect; then the state-dependent parts of
    the rendered view ([getRank], the overlays, the grid of buttons, the
    footer) and the interval of the countdown with its [timerRef].

    Conventions.
    - JavaScript numbers that the game manipulates (score, seconds, grid
      size, indices, HSL channels) are integers throughout and are
      modelled as [Z]; [Math.floor (x / 3)] on an integer [x] is [x / 3].
    - [Math.random ()] returns a number in the half-open unit interval.
      A draw is a rational with that range built into its type, and the
      sequence of values the generator will return is a function
      [nat -> Draw] consumed through a cursor (the [Rand] monad).
      Products [Math.random () * n] are taken exactly; all that is used
      of their floors is the range [0 .. n-1], which the rounded
      products of doubles have as well.
    - React state is a record; one event handler runs against the state
      of the latest render, all its [set...] calls are applied together,
      and the effects run before the next event. *)

From Stdlib Require Import ZArith QArith Qround Lia.
From Stdlib Require Import String Ascii DecimalString DecimalZ DecimalPos.
From stdpp Require Import base list strings gmap.

Local Open Scope Z_scope.

(** ** Types and constants (App.tsx, lines 10-23) *)

Inductive GameState : Set := START | PLAYING | GAMEOVER.

#[global] Instance GameState_eq_dec : EqDecision GameState.
Proof. solve_decision. Defined.

(** [interface Color { h; s; l }] *)
Record Color : Set := mkColor { h : Z; s : Z; l : Z }.

Definition INITIAL_TIME : Z := 15.
Definition TIME_BONUS : Z := 2.
Definition MIN_GRID_SIZE : Z := 2.
Definition MAX_GRID_SIZE : Z := 8.

(** ** The random source *)

(** The contract of [Math.random]: [0 <= r < 1]. *)
Definition inUnit (q : Q) : bool := Qle_bool 0 q && negb (Qle_bool 1 q).

Record Draw : Set := mkDraw { drawVal : Q; drawOk : inUnit drawVal = true }.

(** [Math.floor (r * n)] *)
Definition floorMul (r : Draw) (n : Z) : Z := Qfloor (drawVal r * inject_Z n).

(** [r > 0.5] *)
Definition gtHalf (r : Draw) : bool := negb (Qle_bool (drawVal r) (1 # 2)).

(** Computations that call [Math.random]: the cursor into the sequence
    of draws is threaded through. *)
Definition Rand (A : Type) : Type := nat -> A * nat.

#[global] Instance Rand_ret : MRet Rand := fun A a k => (a, k).
#[global] Instance Rand_bind : MBind Rand :=
  fun A B f m k => let (a, k') := m k in f a k'.

(** ** Rendering a colour as CSS text *)

(** [`${n}`] for an integer [n]. *)
Definition numberToString (n : Z) : string := NilZero.string_of_int (Z.to_int n).

(** [`hsl(${h}, ${s}%, ${l}%)`] *)
Definition hsl (c : Color) : string :=
  "hsl(" +:+ numberToString (h c) +:+ ", " +:+ numberToString (s c) +:+ "%, "
         +:+ numberToString (l c) +:+ "%)".

(** ** React state (App.tsx, lines 26-32) *)

Record AppState : Type := mkApp {
  gameState : GameState;
  score : Z;
  timeLeft : Z;
  gridSize : Z;
  colors : list string;
  targetIndex : Z;
  bestScore : Z
}.

Definition initialState : AppState :=
  {| gameState := START; score := 0; timeLeft := INITIAL_TIME;
     gridSize := MIN_GRID_SIZE; colors := []; targetIndex := -1;
     bestScore := 0 |}.

Definition setGameState (v : GameState) (st : AppState) : AppState :=
  mkApp v (score st) (timeLeft st) (gridSize st) (colors st) (targetIndex st) (bestScore st).
Definition setScore (v : Z) (st : AppState) : AppState :=
  mkApp (gameState st) v (timeLeft st) (gridSize st) (colors st) (targetIndex st) (bestScore st).
(** [setTimeLeft] is only ever called with an updater [prev => ...]. *)
Definition setTimeLeft (f : Z -> Z) (st : AppState) : AppState :=
  mkApp (gameState st) (score st) (f (timeLeft st)) (gridSize st) (colors st) (targetIndex st) (bestScore st).
Definition setGridSize (v : Z) (st : AppState) : AppState :=
  mkApp (gameState st) (score st) (timeLeft st) v (colors st) (targetIndex st) (bestScore st).
Definition setColors (v : list string) (st : AppState) : AppState :=
  mkApp (gameState st) (score st) (timeLeft st) (gridSize st) v (targetIndex st) (bestScore st).
Definition setTargetIndex (v : Z) (st : AppState) : AppState :=
  mkApp (gameState st) (score st) (timeLeft st) (gridSize st) (colors st) v (bestScore st).
Definition setBestScore (v : Z) (st : AppState) : AppState :=
  mkApp (gameState st) (score st) (timeLeft st) (gridSize st) (colors st) (targetIndex st) v.

(** The user-visible events of the component. *)
Inductive Event : Set :=
| Start                (* a click on one of the two start buttons *)
| Click (index : Z)    (* a click on the block at [index] *)
| Tick.                (* the one-second interval fires *)

(** Which channel carries the difference (line 48). *)
Inductive Component : Set := compL | compS.

Section Game.

(** The values successive calls of [Math.random ()] return. *)
Variable source : nat -> Draw.

Definition mathRandom : Rand Draw := fun k => (source k, S k).

(** ** Helper functions (App.tsx, lines 38-78) *)

(** Line 45: the difference between target and base, in percent. *)
Definition delta (currentScore : Z) : Z := Z.max 1 (15 - currentScore / 3).

(** [generateColor] up to the two template strings: the channels of the
    base and of the target colour. *)
Definition generateChannels (currentScore : Z) : Rand (Color * Color) :=
  rh ← mathRandom;
  let h := floorMul rh 360 in
  rs ← mathRandom;
  let s := floorMul rs 40 + 40 in
  rl ← mathRandom;
  let l := floorMul rl 40 + 30 in
  let delta := delta currentScore in
  rc ← mathRandom;
  let component := if gtHalf rc then compL else compS in
  let diffL := match component with
               | compL => if l >? 50 then - delta else delta
               | compS => 0
               end in
  let diffS := match component with
               | compS => if s >? 50 then - delta else delta
               | compL => 0
               end in
  mret (mkColor h s l, mkColor h (s + diffS) (l + diffL)).

Definition generateColor (currentScore : Z) : Rand (string * string) :=
  '(base, target) ← generateChannels currentScore;
  mret (hsl base, hsl target).

(** Lines 60-66: the grid size progression. *)
Definition newGridSize (currentScore : Z) : Z :=
  let g := MIN_GRID_SIZE in
  let g := if currentScore >=? 2 then 3 else g in
  let g := if currentScore >=? 6 then 4 else g in
  let g := if currentScore >=? 12 then 5 else g in
  let g := if currentScore >=? 20 then 6 else g in
  let g := if currentScore >=? 30 then 7 else g in
  let g := if currentScore >=? 45 then 8 else g in
  g.

(** [nextLevel]. The assignment [newColors[newTargetIndex] = targetColor]
    is a list update: the index is a floor of a draw times the length, so
    it is a position of the array (lemma [targetIndex_range]) and the
    JavaScript array never grows. *)
Definition nextLevel (currentScore : Z) (st : AppState) : Rand AppState :=
  let newGridSize := newGridSize currentScore in
  '(baseColor, targetColor) ← generateColor currentScore;
  let totalBlocks := newGridSize * newGridSize in
  r ← mathRandom;
  let newTargetIndex := floorMul r totalBlocks in
  let newColors := replicate (Z.to_nat totalBlocks) baseColor in
  let newColors := <[Z.to_nat newTargetIndex := targetColor]> newColors in
  mret (setTargetIndex newTargetIndex (setColors newColors (setGridSize newGridSize st))).

(** ** Event handlers (App.tsx, lines 80-99) *)

Definition startGame (st : AppState) : Rand AppState :=
  nextLevel 0
    (setGameState PLAYING (setTimeLeft (fun _ => INITIAL_TIME) (setScore 0 st))).

Definition handleBlockClick (index : Z) (st : AppState) : Rand AppState :=
  if decide (gameState st <> PLAYING) then mret st
  else if index =? targetIndex st then
    let newScore := score st + 1 in
    nextLevel newScore
      (setTimeLeft (fun prev => Z.min (prev + TIME_BONUS) 30) (setScore newScore st))
  else
    mret (setTimeLeft (fun prev => Z.max 0 (prev - 3)) st).

(** ** Effects (App.tsx, lines 102-126) *)

(** The interval callback: the updater given to [setTimeLeft], together
    with the [setGameState] it performs. *)
Definition timerCallback (st : AppState) : AppState :=
  if timeLeft st <=? 1
  then setTimeLeft (fun _ => 0) (setGameState GAMEOVER st)
  else setTimeLeft (fun prev => prev - 1) st.

(** The interval exists exactly while the rendered [gameState] is
    [PLAYING]: the effect creates it then and clears it otherwise. *)
Definition tick (st : AppState) : AppState :=
  if decide (gameState st = PLAYING) then timerCallback st else st.

(** The second effect: record a new best score. *)
Definition bestScoreEffect (st : AppState) : AppState :=
  if bool_decide (gameState st = GAMEOVER) && (score st >? bestScore st)
  then setBestScore (score st) st
  else st.

(** ** The component as a transition system *)

Definition dispatch (e : Event) (st : AppState) : Rand AppState :=
  match e with
  | Start => startGame st
  | Click index => handleBlockClick index st
  | Tick => mret (tick st)
  end.

(** One event: the handler, the re-render, then the effects. *)
Definition step (e : Event) (st : AppState) : Rand AppState :=
  st' ← dispatch e st;
  mret (bestScoreEffect st').

Fixpoint run (es : list Event) (st : AppState) : Rand AppState :=
  match es with
  | [] => mret st
  | e :: es => st' ← step e st; run es st'
  end.

(** The sessions the component can be in: the state and the number of
    draws used so far. *)
Inductive Reachable : AppState -> nat -> Prop :=
| reach_init : Reachable initialState 0%nat
| reach_step e st k st' k' :
    Reachable st k -> step e st k = (st', k') -> Reachable st' k'.

End Game.

(** The round a state displays: grid dimension, tiles, target position. *)
Definition currentRound (st : AppState) : Z * list string * Z :=
  (gridSize st, colors st, targetIndex st).

(** The grid dimension as the specification words it: a cascade of
    inclusive lower bounds, largest first. *)
Definition gridSizeSpec (sc : Z) : Z :=
  if 45 <=? sc then 8
  else if 30 <=? sc then 7
  else if 20 <=? sc then 6
  else if 12 <=? sc then 5
  else if 6 <=? sc then 4
  else if 2 <=? sc then 3
  else 2.

(** What holds of every session the component can reach. *)
Record SessionOk (st : AppState) : Prop := {
  ok_score : 0 <= score st;
  ok_best : 0 <= bestScore st;
  ok_time : 0 <= timeLeft st <= 30;
  ok_over : gameState st = GAMEOVER -> score st <= bestScore st;
  ok_grid : gameState st <> START -> gridSize st = newGridSize (score st);
  ok_tiles : gameState st <> START ->
             length (colors st) = Z.to_nat (gridSize st * gridSize st);
  ok_target : gameState st <> START ->
              0 <= targetIndex st < gridSize st * gridSize st
}.

(** ** Render helpers and the rendered view (App.tsx, lines 129-263) *)

Record Rank : Set := mkRank { title : string; color : string }.

(** [getRank] *)
Definition getRank (s : Z) : Rank :=
  if s <? 10 then mkRank "色彩初学者" "text-slate-400"
  else if s <? 20 then mkRank "色感进阶者" "text-emerald-500"
  else if s <? 35 then mkRank "视觉艺术家" "text-indigo-500"
  else if s <? 50 then mkRank "色彩大师" "text-amber-500"
  else mkRank "神之眼" "text-rose-500".

(** What the game-over overlay shows (lines 197-228): the score, the rank
    of the score, the best score and [#${Math.floor(score/5) + 1}]. *)
Record GameOverPanel : Set := mkPanel {
  panelScore : Z;
  panelRank : Rank;
  panelBest : Z;
  panelRankNumber : Z
}.

(** One button of the grid (lines 240-249). Its [onClick] is
    [() => handleBlockClick(idx)], the event [Click idx]. *)
Record Block : Set := mkBlock {
  key : string;
  backgroundColor : string;
  onClick : Event
}.

Definition renderBlocks (st : AppState) : list Block :=
  imap (fun idx color =>
          mkBlock (numberToString (Z.of_nat idx) +:+ "-" +:+ color)
                  color
                  (Click (Z.of_nat idx)))
       (colors st).

(** The parts of the rendered tree that depend on the state. The two
    overlays each carry a button wired to [startGame]. *)
Record View : Type := mkView {
  timeAlarm : bool;                        (* [timeLeft <= 5] *)
  startOverlay : bool;                     (* [gameState === 'START'] *)
  gameOverOverlay : option GameOverPanel;  (* [gameState === 'GAMEOVER'] *)
  blocks : list Block;
  footerGrid : Z;                          (* [Grid: {gridSize}x{gridSize}] *)
  footerDiff : Z                           (* [Diff: {...}%] *)
}.

Definition render (st : AppState) : View :=
  {| timeAlarm := timeLeft st <=? 5;
     startOverlay := bool_decide (gameState st = START);
     gameOverOverlay :=
       if decide (gameState st = GAMEOVER)
       then Some (mkPanel (score st) (getRank (score st)) (bestScore st)
                          (score st / 5 + 1))
       else None;
     blocks := renderBlocks st;
     footerGrid := gridSize st;
     footerDiff := Z.max 1 (15 - score st / 3) |}.

(** ** The interval behind the countdown (App.tsx, lines 35, 102-120)

    Interval handles are positive numbers, handed out in increasing
    order; [live] is the set of intervals that have been set and not
    cleared, [timerRef] is [timerRef.current] ([None] for [null]). *)

Record Timers : Type := mkTimers {
  nextId : positive;
  live : gset positive;
  timerRef : option positive
}.

Definition setInterval (tm : Timers) : positive * Timers :=
  (nextId tm, mkTimers (Pos.succ (nextId tm)) ({[nextId tm]} ∪ live tm) (timerRef tm)).

Definition clearInterval (id : positive) (tm : Timers) : Timers :=
  mkTimers (nextId tm) (live tm ∖ {[id]}) (timerRef tm).

(** [if (timerRef.current) clearInterval(timerRef.current)] *)
Definition clearCurrent (tm : Timers) : Timers :=
  match timerRef tm with
  | Some id => clearInterval id tm
  | None => tm
  end.

(** The body of the effect, for the [gameState] of the render. *)
Definition timerEffect (gs : GameState) (tm : Timers) : Timers :=
  if decide (gs = PLAYING)
  then let (id, tm') := setInterval tm in
       mkTimers (nextId tm') (live tm') (Some id)
  else clearCurrent tm.

(** The function the effect returns. *)
Definition timerCleanup (tm : Timers) : Timers := clearCurrent tm.

(** After a render: the dependency list is [[gameState]], so the effect
    is left alone when [gameState] is what it was at the previous render,
    and otherwise its cleanup runs, then its body. *)
Definition commitTimer (before after : GameState) (tm : Timers) : Timers :=
  if decide (before = after) then tm
  else timerEffect after (timerCleanup tm).

(** The component with its interval. *)
Record World : Type := mkWorld { appState : AppState; timers : Timers }.

(** After the first render: no interval has been set. *)
Definition initialWorld : World :=
  mkWorld initialState (timerEffect START (mkTimers 1 ∅ None)).

Inductive WorldEvent : Set :=
| WStart
| WClick (index : Z)
| WFire (id : positive).   (* the interval [id] is due *)

(** The event of the transition system that a world event amounts to. *)
Definition eventOf (e : WorldEvent) : Event :=
  match e with
  | WStart => Start
  | WClick index => Click index
  | WFire _ => Tick
  end.

Section Worlds.

Variable source : nat -> Draw.

(** One event of the component with its interval. A cleared interval
    never runs its callback; a live one runs [timerCallback], whatever
    the phase. The effects follow the re-render. *)
Definition worldStep (e : WorldEvent) (w : World) : Rand World :=
  match e with
  | WFire id =>
      if decide (id ∈ live (timers w))
      then let st' := bestScoreEffect (timerCallback (appState w)) in
           mret (mkWorld st' (commitTimer (gameState (appState w)) (gameState st') (timers w)))
      else mret w
  | _ =>
      st' ← step source (eventOf e) (appState w);
      mret (mkWorld st' (commitTimer (gameState (appState w)) (gameState st') (timers w)))
  end.

Inductive WorldReachable : World -> nat -> Prop :=
| wreach_init : WorldReachable initialWorld 0%nat
| wreach_step e w k w' k' :
    WorldReachable w k -> worldStep e w k = (w', k') -> WorldReachable w' k'.

End Worlds.

(** ** Auxiliary notions *)

Section Cases.

Variable source : nat -> Draw.

(** The six things one event can do. *)
Inductive StepCase (e : Event) (st : AppState) (k : nat) : Prop :=
| case_start :
    e = Start ->
    step source e st k =
    nextLevel source 0
      (setGameState PLAYING (setTimeLeft (fun _ => INITIAL_TIME) (setScore 0 st))) k ->
    StepCase e st k
| case_right :
    e = Click (targetIndex st) -> gameState st = PLAYING ->
    step source e st k =
    nextLevel source (score st + 1)
      (setTimeLeft (fun prev => Z.min (prev + TIME_BONUS) 30)
                   (setScore (score st + 1) st)) k ->
    StepCase e st k
| case_wrong index :
    e = Click index -> index <> targetIndex st -> gameState st = PLAYING ->
    step source e st k = (setTimeLeft (fun prev => Z.max 0 (prev - 3)) st, k) ->
    StepCase e st k
| case_tick_on :
    e = Tick -> gameState st = PLAYING -> 1 < timeLeft st ->
    step source e st k = (setTimeLeft (fun prev => prev - 1) st, k) ->
    StepCase e st k
| case_tick_over :
    e = Tick -> gameState st = PLAYING -> timeLeft st <= 1 ->
    step source e st k =
    (setBestScore (Z.max (bestScore st) (score st))
       (setTimeLeft (fun _ => 0) (setGameState GAMEOVER st)), k) ->
    StepCase e st k
| case_idle :
    e <> Start -> gameState st <> PLAYING ->
    step source e st k = (st, k) ->
    StepCase e st k.

End Cases.

(** The character [c] occurs in [t]. *)
Fixpoint occurs (c : ascii) (t : string) : Prop :=
  match t with
  | EmptyString => False
  | String c' t' => c = c' \/ occurs c t'
  end.

(** The intervals that fit a phase: one live interval, held by
    [timerRef], while playing; none otherwise. *)
Definition TimersOk (gs : GameState) (tm : Timers) : Prop :=
  (gs = PLAYING -> exists id : positive,
      timerRef tm = Some id /\ live tm = {[id]})
  /\ (gs <> PLAYING -> live tm = ∅).

(** The round on display is the one [nextLevel] builds for the current
    score, from the draws at some cursor. *)
Definition roundBuiltFor (source : nat -> Draw) (st : AppState) : Prop :=
  exists k0 : nat,
    currentRound st = currentRound (nextLevel source (score st) st k0).1.

(** What holds of every reachable session, phase by phase. *)
Record PhaseOk (source : nat -> Draw) (st : AppState) : Prop := {
  phase_start : gameState st = START -> st = initialState;
  phase_over : gameState st = GAMEOVER -> timeLeft st = 0;
  phase_round : gameState st <> START -> roundBuiltFor source st
}.

(** ** Sample sessions *)

(** A generator that always returns 0, and one that always returns 3/4. *)
Definition zeroSource : nat -> Draw := fun _ => mkDraw 0 eq_refl.
Definition highSource : nat -> Draw := fun _ => mkDraw (3 # 4) eq_refl.

(** The session right after the start button, under each generator. *)
Definition afterStart : AppState := (step zeroSource Start initialState 0%nat).1.
Definition afterStartHigh : AppState := (step highSource Start initialState 0%nat).1.

(** A game played to its end: start, one right click, then the clock
    runs out. *)
Definition afterGameOver : AppState :=
  (run zeroSource (Start :: Click 0 :: replicate 17 Tick) initialState 0%nat).1.

(** The component with its interval, right after the start button. *)
Definition worldAfterStart : World :=
  (worldStep zeroSource WStart initialWorld 0%nat).1.

(** * Properties *)

(** ** Draws *)

Lemma drawVal_range (r : Draw) : (0 <= drawVal r)%Q /\ (drawVal r < 1)%Q.
Proof.
  destruct r as [q Hq]; simpl. unfold inUnit in Hq.
  apply andb_prop in Hq as [Hlo Hhi].
  split.
  - now apply Qle_bool_iff.
  - apply Qnot_le_lt. intros Hle. apply Qle_bool_iff in Hle.
    rewrite Hle in Hhi. discriminate.
Qed.

(** [Math.floor (Math.random () * n)] is one of [0 .. n-1]. *)
Lemma floorMul_range (r : Draw) (n : Z) : 0 < n -> 0 <= floorMul r n < n.
Proof.
  intros Hn. destruct (drawVal_range r) as [Hlo Hhi]. unfold floorMul.
  assert (Hn' : (0 < inject_Z n)%Q).
  { change (inject_Z 0 < inject_Z n)%Q. rewrite <- Zlt_Qlt. exact Hn. }
  split.
  - rewrite <- (Qfloor_Z 0). apply Qfloor_resp_le. change (inject_Z 0) with 0%Q.
    apply Qmult_le_0_compat; [exact Hlo | now apply Qlt_le_weak].
  - rewrite Zlt_Qlt.
    eapply Qle_lt_trans; [apply Qfloor_le |].
    rewrite <- (Qmult_1_l (inject_Z n)) at 2.
    now apply Qmult_lt_compat_r.
Qed.

(** ** CSS text *)

Lemma append_cons (c : ascii) (a b : string) :
  String c a +:+ b = String c (a +:+ b).
Proof. reflexivity. Qed.

Lemma append_length (a b : string) :
  String.length (a +:+ b) = (String.length a + String.length b)%nat.
Proof.
  induction a as [|c a IH]; [reflexivity |].
  rewrite append_cons. simpl. now rewrite IH.
Qed.

Lemma append_cancel_r (t a b : string) : a +:+ t = b +:+ t -> a = b.
Proof.
  revert b. induction a as [|c a IH]; intros [|c' b] Heq.
  - reflexivity.
  - apply (f_equal String.length) in Heq.
    rewrite !append_length in Heq. simpl in Heq. lia.
  - apply (f_equal String.length) in Heq.
    rewrite !append_length in Heq. simpl in Heq. lia.
  - rewrite !append_cons in Heq. injection Heq as -> Heq.
    f_equal. now apply IH.
Qed.

Lemma append_cancel_l (p a b : string) : p +:+ a = p +:+ b -> a = b.
Proof. apply String.app_inj. Qed.

Lemma to_int_not_nil (n : Z) :
  Z.to_int n <> Decimal.Pos Decimal.Nil /\ Z.to_int n <> Decimal.Neg Decimal.Nil.
Proof.
  destruct n as [|p|p]; simpl; split; try discriminate;
    intros Heq; injection Heq; apply Unsigned.to_uint_nonnil.
Qed.

(** Distinct integers print differently. *)
Lemma numberToString_inj (a b : Z) : numberToString a = numberToString b -> a = b.
Proof.
  unfold numberToString. intros Heq.
  apply (f_equal NilZero.int_of_string) in Heq.
  destruct (to_int_not_nil a) as [Ha1 Ha2], (to_int_not_nil b) as [Hb1 Hb2].
  rewrite !NilZero.isi in Heq by assumption.
  injection Heq as Heq. apply (f_equal Z.of_int) in Heq.
  now rewrite !DecimalZ.of_to in Heq.
Qed.

(** Two colours with the same text have the same channels. *)
Lemma hsl_same_hue_inj (h0 s1 l1 s2 l2 : Z) :
  (s1 = s2 \/ l1 = l2) ->
  hsl (mkColor h0 s1 l1) = hsl (mkColor h0 s2 l2) -> s1 = s2 /\ l1 = l2.
Proof.
  unfold hsl; simpl h; simpl s; simpl l. intros Hsame Heq.
  apply append_cancel_l in Heq.
  apply append_cancel_l in Heq.
  apply append_cancel_l in Heq.
  destruct Hsame as [-> | ->].
  - split; [reflexivity |].
    apply append_cancel_l in Heq. apply append_cancel_l in Heq.
    apply (append_cancel_r "%)") in Heq. now apply numberToString_inj.
  - split; [| reflexivity].
    apply append_cancel_r in Heq. now apply numberToString_inj.
Qed.

(** ** The functions, unfolded *)

Section GameFacts.

Variable source : nat -> Draw.

Lemma delta_ge_1 (sc : Z) : 1 <= delta sc.
Proof. unfold delta. lia. Qed.

Lemma delta_le_15 (sc : Z) : 0 <= sc -> delta sc <= 15.
Proof.
  intros Hsc. unfold delta.
  assert (0 <= sc / 3) by (apply Z.div_pos; lia). lia.
Qed.

Lemma delta_antitone (a b : Z) : a <= b -> delta b <= delta a.
Proof.
  intros Hab. unfold delta.
  assert (a / 3 <= b / 3) by (apply Z.div_le_mono; lia). lia.
Qed.

Lemma newGridSize_spec (sc : Z) : newGridSize sc = gridSizeSpec sc.
Proof.
  unfold newGridSize, gridSizeSpec, MIN_GRID_SIZE.
  repeat match goal with
         | |- context [?a >=? ?b] => destruct (Z.geb_spec a b)
         | |- context [?a <=? ?b] => destruct (Z.leb_spec a b)
         end; lia.
Qed.

Lemma newGridSize_range (sc : Z) : 2 <= newGridSize sc <= 8.
Proof.
  rewrite newGridSize_spec. unfold gridSizeSpec.
  repeat match goal with
         | |- context [?a <=? ?b] => destruct (Z.leb_spec a b)
         end; lia.
Qed.

Lemma generateChannels_eq (sc : Z) (k : nat) :
  generateChannels source sc k =
  (let h0 := floorMul (source k) 360 in
   let s0 := floorMul (source (S k)) 40 + 40 in
   let l0 := floorMul (source (S (S k))) 40 + 30 in
   let diffL := if gtHalf (source (S (S (S k))))
                then (if l0 >? 50 then - delta sc else delta sc) else 0 in
   let diffS := if gtHalf (source (S (S (S k))))
                then 0 else (if s0 >? 50 then - delta sc else delta sc) in
   (mkColor h0 s0 l0, mkColor h0 (s0 + diffS) (l0 + diffL)),
   S (S (S (S k)))).
Proof.
  unfold generateChannels, mathRandom, mbind, mret, Rand_bind, Rand_ret.
  destruct (gtHalf (source (S (S (S k))))); reflexivity.
Qed.

Lemma generateColor_eq (sc : Z) (k : nat) :
  generateColor source sc k =
  ((hsl (generateChannels source sc k).1.1, hsl (generateChannels source sc k).1.2),
   S (S (S (S k)))).
Proof.
  unfold generateColor, mbind, mret, Rand_bind, Rand_ret.
  rewrite generateChannels_eq. reflexivity.
Qed.

Lemma nextLevel_eq (sc : Z) (st : AppState) (k : nat) :
  nextLevel source sc st k =
  (let g := newGridSize sc in
   let i := floorMul (source (S (S (S (S k))))) (g * g) in
   let bt := (generateColor source sc k).1 in
   {| gameState := gameState st; score := score st; timeLeft := timeLeft st;
      gridSize := g;
      colors := <[Z.to_nat i := bt.2]> (replicate (Z.to_nat (g * g)) bt.1);
      targetIndex := i;
      bestScore := bestScore st |},
   S (S (S (S (S k))))).
Proof.
  unfold nextLevel, mathRandom, mbind, mret, Rand_bind, Rand_ret.
  rewrite generateColor_eq. reflexivity.
Qed.

(** ** The round generator *)

(** C6. The grid dimension of the round [nextLevel] builds is the step
    function of the score: 8 from 45 on, 7 from 30, 6 from 20, 5 from 12,
    4 from 6, 3 from 2, else 2. That function never decreases as the
    score grows and stays within 2..8; at score 2 the round built has
    dimension 3 and 9 tiles. *)
Theorem C6_grid_size_step_function (sc : Z) (st : AppState) (k : nat) :
  gridSize (nextLevel source sc st k).1 = gridSizeSpec sc
  /\ MIN_GRID_SIZE <= gridSizeSpec sc <= MAX_GRID_SIZE
  /\ (forall sc' : Z, sc <= sc' -> gridSizeSpec sc <= gridSizeSpec sc')
  /\ gridSize (nextLevel source 2 st k).1 = 3
  /\ length (colors (nextLevel source 2 st k).1) = 9%nat.
Proof.
  rewrite !nextLevel_eq. cbn [fst gridSize colors].
  split; [apply newGridSize_spec |].
  split; [rewrite <- newGridSize_spec; apply newGridSize_range |].
  split.
  - intros sc' Hle. unfold gridSizeSpec.
    repeat match goal with
           | |- context [?a <=? ?b] => destruct (Z.leb_spec a b)
           end; lia.
  - split; [reflexivity |].
    rewrite length_insert, length_replicate. reflexivity.
Qed.

(** C7. The gap between the target colour and the base colour that
    [generateColor] produces is max(1, 15 - floor(score / 3)): it is what
    [delta] computes, the two colours are that far apart, it never grows
    with the score and it is never below 1. *)
Theorem C7_delta_formula (sc : Z) (k : nat) :
  let base := (generateChannels source sc k).1.1 in
  let target := (generateChannels source sc k).1.2 in
  delta sc = Z.max 1 (15 - sc / 3)
  /\ Z.abs (s target - s base) + Z.abs (l target - l base) = Z.max 1 (15 - sc / 3)
  /\ (forall sc' : Z, sc <= sc' -> delta sc' <= delta sc)
  /\ 1 <= delta sc.
Proof.
  rewrite generateChannels_eq. cbn zeta. cbn [fst snd s l].
  split; [reflexivity |].
  split.
  - pose proof (delta_ge_1 sc) as Hd. fold (delta sc).
    destruct (gtHalf _);
      repeat match goal with
             | |- context [?a >? ?b] => destruct (Z.gtb_spec a b)
             end; lia.
  - split; [intros sc'; apply delta_antitone | apply delta_ge_1].
Qed.

(** C8. For a score that is not negative, the base colour has its hue in
    0..359, saturation in 40..79 and lightness in 30..69; the target has
    the same hue and differs from the base in exactly one of saturation
    and lightness, by [delta]: subtracted when the base value of that
    channel exceeds 50, added otherwise. Both channels of the target stay
    within 0..100, and the two colours are what [generateColor] prints. *)
Theorem C8_color_pair_channels (sc : Z) (k : nat) :
  0 <= sc ->
  let base := (generateChannels source sc k).1.1 in
  let target := (generateChannels source sc k).1.2 in
  (generateColor source sc k).1 = (hsl base, hsl target)
  /\ 0 <= h base < 360 /\ 40 <= s base < 80 /\ 30 <= l base < 70
  /\ h target = h base
  /\ ((s target = (if s base >? 50 then s base - delta sc else s base + delta sc)
       /\ l target = l base)
      \/ (l target = (if l base >? 50 then l base - delta sc else l base + delta sc)
          /\ s target = s base))
  /\ 0 <= s target <= 100 /\ 0 <= l target <= 100.
Proof.
  intros Hsc. rewrite generateColor_eq, generateChannels_eq.
  cbn zeta. cbn [fst snd h s l].
  pose proof (floorMul_range (source k) 360 ltac:(lia)) as Hh.
  pose proof (floorMul_range (source (S k)) 40 ltac:(lia)) as Hs.
  pose proof (floorMul_range (source (S (S k))) 40 ltac:(lia)) as Hl.
  pose proof (delta_ge_1 sc) as Hd1.
  pose proof (delta_le_15 sc Hsc) as Hd15.
  split; [reflexivity |].
  repeat (split; [lia |]).
  destruct (gtHalf _);
    repeat match goal with
           | |- context [?a >? ?b] => destruct (Z.gtb_spec a b)
           end;
    (split; [first [left; split; lia | right; split; lia] | lia]).
Qed.

(** The two texts [generateColor] returns are different. *)
Lemma generateColor_distinct (sc : Z) (k : nat) :
  (generateColor source sc k).1.1 <> (generateColor source sc k).1.2.
Proof.
  rewrite generateColor_eq, generateChannels_eq.
  cbn zeta. cbn [fst snd]. intros Heq.
  pose proof (delta_ge_1 sc) as Hd.
  apply hsl_same_hue_inj in Heq.
  - destruct Heq as [Hs Hl]. revert Hs Hl.
    destruct (gtHalf _);
      repeat match goal with
             | |- context [?a >? ?b] => destruct (Z.gtb_spec a b)
             end; lia.
  - destruct (gtHalf _); [left | right]; lia.
Qed.

Lemma targetIndex_range (sc : Z) (r : Draw) :
  0 <= floorMul r (newGridSize sc * newGridSize sc)
    < newGridSize sc * newGridSize sc.
Proof.
  apply floorMul_range. pose proof (newGridSize_range sc). nia.
Qed.

(** C5. In the round [nextLevel] builds, with [base] and [target] the two
    colours [generateColor] returned for it: there are gridSize * gridSize
    tiles, the target index is one of their positions, the tile there is
    [target], every other tile is [base], and [target] is not [base]; so
    the tile that is not [base] is the one at the target index and no
    other. *)
Theorem C5_round_invariant (sc : Z) (st : AppState) (k : nat) :
  let st' := (nextLevel source sc st k).1 in
  let base := (generateColor source sc k).1.1 in
  let target := (generateColor source sc k).1.2 in
  length (colors st') = Z.to_nat (gridSize st' * gridSize st')
  /\ 0 <= targetIndex st' < gridSize st' * gridSize st'
  /\ colors st' !! Z.to_nat (targetIndex st') = Some target
  /\ (forall i : nat, (i < length (colors st'))%nat ->
        i <> Z.to_nat (targetIndex st') -> colors st' !! i = Some base)
  /\ target <> base
  /\ (forall i : nat, (i < length (colors st'))%nat ->
        (colors st' !! i <> Some base <-> i = Z.to_nat (targetIndex st'))).
Proof.
  rewrite nextLevel_eq. cbn zeta. cbn [fst gridSize colors targetIndex].
  set (g := newGridSize sc).
  set (i0 := floorMul _ (g * g)).
  set (base := (generateColor source sc k).1.1).
  set (target := (generateColor source sc k).1.2).
  assert (Hi0 : 0 <= i0 < g * g) by apply targetIndex_range.
  assert (Hne : target <> base).
  { intros Heq. apply (generateColor_distinct sc k). symmetry. exact Heq. }
  assert (Hlen : length (<[Z.to_nat i0:=target]> (replicate (Z.to_nat (g * g)) base))
                 = Z.to_nat (g * g)).
  { now rewrite length_insert, length_replicate. }
  assert (Hat : <[Z.to_nat i0:=target]> (replicate (Z.to_nat (g * g)) base)
                  !! Z.to_nat i0 = Some target).
  { apply list_lookup_insert_eq. rewrite length_replicate. lia. }
  assert (Hother : forall i : nat, (i < Z.to_nat (g * g))%nat -> i <> Z.to_nat i0 ->
            <[Z.to_nat i0:=target]> (replicate (Z.to_nat (g * g)) base) !! i
            = Some base).
  { intros i Hi Hneq. rewrite list_lookup_insert_ne by congruence.
    now apply lookup_replicate_2. }
  rewrite Hlen.
  repeat split; try assumption; try lia.
  - intros Hdiff. destruct (decide (i = Z.to_nat i0)) as [-> | Hneq];
      [reflexivity |]. exfalso. apply Hdiff. now apply Hother.
  - intros -> Heq. rewrite Hat in Heq. congruence.
Qed.

(** ** The session controller *)

Lemma step_eq (e : Event) (st : AppState) (k : nat) :
  step source e st k =
  (bestScoreEffect (dispatch source e st k).1, (dispatch source e st k).2).
Proof.
  unfold step, mbind, mret, Rand_bind, Rand_ret.
  destruct (dispatch source e st k); reflexivity.
Qed.

Lemma bestScoreEffect_playing (st : AppState) :
  gameState st <> GAMEOVER -> bestScoreEffect st = st.
Proof.
  intros Hne. unfold bestScoreEffect.
  rewrite bool_decide_eq_false_2 by exact Hne. reflexivity.
Qed.

Lemma bestScoreEffect_over (st : AppState) :
  gameState st = GAMEOVER ->
  bestScoreEffect st = setBestScore (Z.max (bestScore st) (score st)) st.
Proof.
  intros Hover. unfold bestScoreEffect.
  rewrite bool_decide_eq_true_2 by exact Hover. cbn [andb].
  destruct (Z.gtb_spec (score st) (bestScore st)) as [Hgt | Hle].
  - now rewrite Z.max_r by lia.
  - rewrite Z.max_l by lia. now destruct st.
Qed.

(** The effect settles after one run: it has nothing left to do on the
    state it produced. *)
Lemma bestScoreEffect_idem (st : AppState) :
  bestScoreEffect (bestScoreEffect st) = bestScoreEffect st.
Proof.
  destruct (decide (gameState st = GAMEOVER)) as [Hover | Hne].
  - rewrite (bestScoreEffect_over st Hover).
    rewrite bestScoreEffect_over by exact Hover.
    unfold setBestScore.
    cbn [gameState score timeLeft gridSize colors targetIndex bestScore].
    f_equal. lia.
  - rewrite (bestScoreEffect_playing st Hne). now apply bestScoreEffect_playing.
Qed.

Lemma click_idle (index : Z) (st : AppState) (k : nat) :
  gameState st <> PLAYING -> handleBlockClick source index st k = (st, k).
Proof.
  intros Hne. unfold handleBlockClick.
  destruct (decide (gameState st <> PLAYING)); [reflexivity | contradiction].
Qed.

Lemma click_right (st : AppState) (k : nat) :
  gameState st = PLAYING ->
  handleBlockClick source (targetIndex st) st k =
  nextLevel source (score st + 1)
    (setTimeLeft (fun prev => Z.min (prev + TIME_BONUS) 30)
                 (setScore (score st + 1) st)) k.
Proof.
  intros Hplay. unfold handleBlockClick.
  destruct (decide (gameState st <> PLAYING)); [contradiction |].
  now rewrite Z.eqb_refl.
Qed.

Lemma click_wrong (index : Z) (st : AppState) (k : nat) :
  gameState st = PLAYING -> index <> targetIndex st ->
  handleBlockClick source index st k =
  (setTimeLeft (fun prev => Z.max 0 (prev - 3)) st, k).
Proof.
  intros Hplay Hne. unfold handleBlockClick.
  destruct (decide (gameState st <> PLAYING)); [contradiction |].
  apply Z.eqb_neq in Hne. now rewrite Hne.
Qed.

Lemma step_click_right (st : AppState) (k : nat) :
  gameState st = PLAYING ->
  step source (Click (targetIndex st)) st k =
  nextLevel source (score st + 1)
    (setTimeLeft (fun prev => Z.min (prev + TIME_BONUS) 30)
                 (setScore (score st + 1) st)) k.
Proof.
  intros Hplay. rewrite step_eq. cbn [dispatch].
  rewrite click_right by exact Hplay. rewrite !nextLevel_eq.
  cbn zeta. cbn [fst snd]. rewrite bestScoreEffect_playing; [reflexivity |].
  cbn [gameState setTimeLeft setScore]. rewrite Hplay. discriminate.
Qed.

Lemma step_click_wrong (index : Z) (st : AppState) (k : nat) :
  gameState st = PLAYING -> index <> targetIndex st ->
  step source (Click index) st k =
  (setTimeLeft (fun prev => Z.max 0 (prev - 3)) st, k).
Proof.
  intros Hplay Hne. rewrite step_eq. cbn [dispatch].
  rewrite click_wrong by assumption. cbn [fst snd].
  rewrite bestScoreEffect_playing; [reflexivity |].
  cbn [gameState setTimeLeft]. rewrite Hplay. discriminate.
Qed.

Lemma step_tick_over (st : AppState) (k : nat) :
  gameState st = PLAYING -> timeLeft st <= 1 ->
  step source Tick st k =
  (setBestScore (Z.max (bestScore st) (score st))
     (setTimeLeft (fun _ => 0) (setGameState GAMEOVER st)), k).
Proof.
  intros Hplay Hle. rewrite step_eq. cbn [dispatch].
  unfold mret, Rand_ret, tick. cbn [fst snd].
  destruct (decide (gameState st = PLAYING)); [| contradiction].
  unfold timerCallback. apply Z.leb_le in Hle. rewrite Hle.
  now rewrite bestScoreEffect_over by reflexivity.
Qed.

Lemma step_tick_on (st : AppState) (k : nat) :
  gameState st = PLAYING -> 1 < timeLeft st ->
  step source Tick st k = (setTimeLeft (fun prev => prev - 1) st, k).
Proof.
  intros Hplay Hgt. rewrite step_eq. cbn [dispatch].
  unfold mret, Rand_ret, tick. cbn [fst snd].
  destruct (decide (gameState st = PLAYING)); [| contradiction].
  unfold timerCallback. apply Z.leb_gt in Hgt. rewrite Hgt.
  rewrite bestScoreEffect_playing; [reflexivity |].
  cbn [gameState setTimeLeft]. rewrite Hplay. discriminate.
Qed.

(** The round [nextLevel] builds, field by field, with [base] and
    [target] the two texts [generateColor] returns at the same cursor. *)
Lemma nextLevel_builds_round (sc : Z) (st : AppState) (k : nat) :
  let st' := (nextLevel source sc st k).1 in
  let base := (generateColor source sc k).1.1 in
  let target := (generateColor source sc k).1.2 in
  gridSize st' = gridSizeSpec sc
  /\ length (colors st') = Z.to_nat (gridSize st' * gridSize st')
  /\ targetIndex st'
     = floorMul (source (4 + k)%nat) (gridSize st' * gridSize st')
  /\ 0 <= targetIndex st' < gridSize st' * gridSize st'
  /\ colors st' !! Z.to_nat (targetIndex st') = Some target
  /\ (forall i : nat, (i < length (colors st'))%nat ->
        i <> Z.to_nat (targetIndex st') -> colors st' !! i = Some base)
  /\ target <> base.
Proof.
  rewrite nextLevel_eq. cbn zeta. cbn [fst gridSize colors targetIndex].
  pose proof (targetIndex_range sc (source (S (S (S (S k)))))) as Hi.
  rewrite length_insert, length_replicate.
  split; [apply newGridSize_spec |].
  split; [reflexivity |].
  split; [reflexivity |].
  split; [exact Hi |].
  split; [apply list_lookup_insert_eq; rewrite length_replicate; lia |].
  split.
  - intros i Hlt Hneq. rewrite list_lookup_insert_ne by congruence.
    now apply lookup_replicate_2.
  - intros Heq. apply (generateColor_distinct sc k). symmetry. exact Heq.
Qed.

(** C2. In a session that is playing, a click on the target block adds
    exactly 1 to the score, sets the time left to min(timeLeft + 2, 30),
    and replaces the round by a new one built for the new score: the
    grid dimension is the step function of score + 1, there are
    gridSize * gridSize tiles, the new target index is the floor of the
    fifth draw times that number, so a position of the grid; the tile
    there is the target colour [generateColor] returns for score + 1,
    every other tile is its base colour, and the two differ. It is the
    round [nextLevel] builds; five draws are used and the session keeps
    playing. With 29 seconds left the result is 30 seconds. *)
Theorem C2_correct_guess (st : AppState) (k : nat) :
  gameState st = PLAYING ->
  let st' := (step source (Click (targetIndex st)) st k).1 in
  let base := (generateColor source (score st + 1) k).1.1 in
  let target := (generateColor source (score st + 1) k).1.2 in
  score st' = score st + 1
  /\ timeLeft st' = Z.min (timeLeft st + 2) 30
  /\ currentRound st' = currentRound (nextLevel source (score st + 1) st k).1
  /\ gameState st' = PLAYING
  /\ bestScore st' = bestScore st
  /\ (timeLeft st = 29 -> timeLeft st' = 30)
  /\ (step source (Click (targetIndex st)) st k).2 = (5 + k)%nat
  /\ gridSize st' = gridSizeSpec (score st + 1)
  /\ length (colors st') = Z.to_nat (gridSize st' * gridSize st')
  /\ targetIndex st'
     = floorMul (source (4 + k)%nat) (gridSize st' * gridSize st')
  /\ 0 <= targetIndex st' < gridSize st' * gridSize st'
  /\ colors st' !! Z.to_nat (targetIndex st') = Some target
  /\ (forall i : nat, (i < length (colors st'))%nat ->
        i <> Z.to_nat (targetIndex st') -> colors st' !! i = Some base)
  /\ target <> base.
Proof.
  intros Hplay. cbn zeta. rewrite step_click_right by exact Hplay.
  set (st2 := setTimeLeft (fun prev => Z.min (prev + TIME_BONUS) 30)
                          (setScore (score st + 1) st)).
  pose proof (nextLevel_builds_round (score st + 1) st2 k) as Hround.
  cbn zeta in Hround.
  repeat (split; [rewrite ?nextLevel_eq; cbn zeta;
                  cbn [fst snd score timeLeft gameState bestScore currentRound
                           gridSize colors targetIndex st2 setTimeLeft setScore];
                  unfold TIME_BONUS;
                  first [reflexivity | assumption | (intros ->; reflexivity)] |]).
  exact Hround.
Qed.

(** C3. In a session that is playing, a click on a block other than the
    target (any index different from the target index, so every in-range
    one) sets the time left to max(timeLeft - 3, 0) and leaves the score,
    the phase and the round (tiles, target index, grid size) as they
    were. *)
Theorem C3_wrong_guess (st : AppState) (k : nat) (index : Z) :
  gameState st = PLAYING ->
  index <> targetIndex st ->
  let st' := (step source (Click index) st k).1 in
  timeLeft st' = Z.max (timeLeft st - 3) 0
  /\ score st' = score st
  /\ gameState st' = gameState st
  /\ currentRound st' = currentRound st
  /\ bestScore st' = bestScore st.
Proof.
  intros Hplay Hne. rewrite step_click_wrong by assumption.
  cbn [fst score timeLeft gameState bestScore setTimeLeft currentRound
           gridSize colors targetIndex].
  repeat split. lia.
Qed.

(** C4. In a session that is playing, a tick of the countdown takes one
    second off the time left; when that would leave 0 or less the time
    left is 0 and the game is over, otherwise the session keeps playing.
    With 1 second left the tick gives 0 seconds and game over, and the
    time left after a tick is never negative. *)
Theorem C4_countdown_tick (st : AppState) (k : nat) :
  gameState st = PLAYING ->
  let st' := (step source Tick st k).1 in
  timeLeft st' = Z.max (timeLeft st - 1) 0
  /\ (timeLeft st - 1 <= 0 -> gameState st' = GAMEOVER)
  /\ (0 < timeLeft st - 1 -> gameState st' = PLAYING)
  /\ (timeLeft st = 1 -> timeLeft st' = 0 /\ gameState st' = GAMEOVER)
  /\ 0 <= timeLeft st'
  /\ score st' = score st
  /\ currentRound st' = currentRound st.
Proof.
  intros Hplay. destruct (Z.le_gt_cases (timeLeft st) 1) as [Hle | Hgt].
  - rewrite step_tick_over by assumption.
    cbn [fst score timeLeft gameState bestScore setTimeLeft setGameState
             setBestScore currentRound gridSize colors targetIndex].
    repeat split; intros; first [reflexivity | lia].
  - rewrite step_tick_on by assumption.
    cbn [fst score timeLeft gameState bestScore setTimeLeft currentRound
             gridSize colors targetIndex].
    repeat split; intros; first [assumption | lia | exfalso; lia].
Qed.

(** ** Phases *)

Lemma click_phase (index : Z) (st : AppState) (k : nat) :
  gameState (handleBlockClick source index st k).1 = gameState st.
Proof.
  unfold handleBlockClick.
  destruct (decide (gameState st <> PLAYING)); [reflexivity |].
  destruct (index =? targetIndex st); [| reflexivity].
  now rewrite nextLevel_eq.
Qed.

Lemma bestScoreEffect_phase (st : AppState) :
  gameState (bestScoreEffect st) = gameState st.
Proof.
  unfold bestScoreEffect.
  now destruct (bool_decide (gameState st = GAMEOVER) && (score st >? bestScore st)).
Qed.

(** The only way from playing to game over. *)
Lemma game_over_by_tick (e : Event) (st : AppState) (k : nat) :
  gameState st = PLAYING ->
  gameState (step source e st k).1 = GAMEOVER ->
  e = Tick /\ timeLeft st <= 1.
Proof.
  intros Hplay. rewrite step_eq. cbn [fst]. rewrite bestScoreEffect_phase.
  destruct e as [| index |]; cbn [dispatch].
  - unfold startGame. rewrite nextLevel_eq. cbn. discriminate.
  - rewrite click_phase, Hplay. discriminate.
  - unfold mret, Rand_ret, tick. cbn [fst].
    destruct (decide (gameState st = PLAYING)); [| contradiction].
    unfold timerCallback.
    destruct (Z.leb_spec (timeLeft st) 1) as [Hle | Hgt].
    + intros _. split; [reflexivity | exact Hle].
    + cbn [gameState setTimeLeft]. rewrite Hplay. discriminate.
Qed.

(** C10. A click on a block never changes the phase, so a session that
    is playing reaches game over through a tick only. A wrong click with
    at most 3 seconds left therefore leaves the session playing with 0
    seconds left: a click on the target is then still accepted (score
    plus 1, 2 seconds left), and the next tick ends the game. *)
Theorem C10_guess_keeps_phase (st : AppState) (k : nat) (index : Z) (e : Event) :
  gameState (step source (Click index) st k).1 = gameState st
  /\ (gameState st = PLAYING ->
      gameState (step source e st k).1 = GAMEOVER -> e = Tick)
  /\ (gameState st = PLAYING -> index <> targetIndex st -> timeLeft st <= 3 ->
      let st1 := (step source (Click index) st k).1 in
      let k1 := (step source (Click index) st k).2 in
      gameState st1 = PLAYING
      /\ timeLeft st1 = 0
      /\ score (step source (Click (targetIndex st1)) st1 k1).1 = score st + 1
      /\ timeLeft (step source (Click (targetIndex st1)) st1 k1).1 = 2
      /\ gameState (step source Tick st1 k1).1 = GAMEOVER).
Proof.
  split; [| split].
  - rewrite step_eq. cbn [fst dispatch].
    now rewrite bestScoreEffect_phase, click_phase.
  - intros Hplay Hover. now destruct (game_over_by_tick e st k Hplay Hover).
  - intros Hplay Hne Hlow. cbn zeta.
    rewrite step_click_wrong by assumption. cbn [fst snd].
    set (st1 := setTimeLeft (fun prev => Z.max 0 (prev - 3)) st).
    assert (Hplay1 : gameState st1 = PLAYING) by exact Hplay.
    assert (Ht1 : timeLeft st1 = 0) by (cbn [st1 timeLeft setTimeLeft]; lia).
    rewrite step_click_right by exact Hplay1. rewrite nextLevel_eq.
    rewrite step_tick_over by (try assumption; lia).
    cbn zeta.
    cbn [fst score timeLeft gameState setTimeLeft setScore setGameState
             setBestScore].
    rewrite Ht1. repeat split; try assumption; reflexivity.
Qed.

(** ** Reachable sessions *)

Lemma bestScoreEffect_ok (st : AppState) :
  0 <= score st -> 0 <= bestScore st -> 0 <= timeLeft st <= 30 ->
  (gameState st <> START -> gridSize st = newGridSize (score st)) ->
  (gameState st <> START ->
   length (colors st) = Z.to_nat (gridSize st * gridSize st)) ->
  (gameState st <> START -> 0 <= targetIndex st < gridSize st * gridSize st) ->
  SessionOk (bestScoreEffect st).
Proof.
  intros Hs Hb Ht Hg Hc Hi.
  destruct (decide (gameState st = GAMEOVER)) as [Hover | Hne].
  - rewrite bestScoreEffect_over by exact Hover.
    constructor;
      cbn [gameState score timeLeft gridSize colors targetIndex bestScore
                     setBestScore]; auto; lia.
  - rewrite bestScoreEffect_playing by exact Hne.
    constructor; auto. intros Hover. contradiction.
Qed.

Lemma step_ok (e : Event) (st : AppState) (k : nat) :
  SessionOk st -> SessionOk (step source e st k).1.
Proof.
  intros [Hs Hb Ht Ho Hg Hc Hi]. rewrite step_eq. cbn [fst].
  destruct e as [| index |]; cbn [dispatch].
  - unfold startGame. rewrite nextLevel_eq. cbn zeta. cbn [fst].
    apply bestScoreEffect_ok;
      cbn [gameState score timeLeft gridSize colors targetIndex bestScore
                     setGameState setTimeLeft setScore];
      unfold INITIAL_TIME;
      first [lia | intros _;
                   first [reflexivity | apply targetIndex_range
                         | now rewrite length_insert, length_replicate]].
  - unfold handleBlockClick.
    destruct (decide (gameState st <> PLAYING)) as [Hidle | Hplay].
    { now apply bestScoreEffect_ok. }
    destruct (index =? targetIndex st).
    + rewrite nextLevel_eq. cbn zeta. cbn [fst].
      apply bestScoreEffect_ok;
        cbn [gameState score timeLeft gridSize colors targetIndex bestScore
                       setTimeLeft setScore];
        unfold TIME_BONUS;
        first [lia | intros _;
                     first [reflexivity | apply targetIndex_range
                           | now rewrite length_insert, length_replicate]].
    + unfold mret, Rand_ret. cbn [fst].
      apply bestScoreEffect_ok;
        cbn [gameState score timeLeft gridSize colors targetIndex bestScore
                       setTimeLeft]; auto; lia.
  - unfold mret, Rand_ret, tick. cbn [fst].
    destruct (decide (gameState st = PLAYING)) as [Hplay | Hidle].
    2: { now apply bestScoreEffect_ok. }
    assert (Hns : gameState st <> START) by (rewrite Hplay; discriminate).
    unfold timerCallback. destruct (timeLeft st <=? 1) eqn:Hle.
    + apply bestScoreEffect_ok;
        cbn [gameState score timeLeft gridSize colors targetIndex bestScore
                       setTimeLeft setGameState]; auto; lia.
    + apply Z.leb_gt in Hle.
      apply bestScoreEffect_ok;
        cbn [gameState score timeLeft gridSize colors targetIndex bestScore
                       setTimeLeft]; auto; lia.
Qed.

Lemma initialState_ok : SessionOk initialState.
Proof.
  constructor; cbn; unfold INITIAL_TIME; try lia; try discriminate;
    intros Hne; now contradiction Hne.
Qed.

Lemma Reachable_ok (st : AppState) (k : nat) :
  Reachable source st k -> SessionOk st.
Proof.
  induction 1 as [| e st k st' k' _ IH Hstep].
  - apply initialState_ok.
  - replace st' with (step source e st k).1 by now rewrite Hstep.
    now apply step_ok.
Qed.

Lemma Reachable_step (e : Event) (st : AppState) (k : nat) :
  Reachable source st k ->
  Reachable source (step source e st k).1 (step source e st k).2.
Proof.
  intros Hr. apply (reach_step source e st k); [exact Hr |].
  now destruct (step source e st k).
Qed.

(** C1 as the code has it. In a reachable session that is playing, a
    click with an index outside the grid (negative, or at least
    gridSize * gridSize) is handled as a wrong guess: the score, the
    phase and the round are unchanged and the time left becomes
    max(timeLeft - 3, 0). *)
Theorem C1_out_of_range_guess_penalised (st : AppState) (k : nat) (index : Z) :
  Reachable source st k ->
  gameState st = PLAYING ->
  index < 0 \/ gridSize st * gridSize st <= index ->
  let st' := (step source (Click index) st k).1 in
  score st' = score st
  /\ gameState st' = gameState st
  /\ currentRound st' = currentRound st
  /\ timeLeft st' = Z.max (timeLeft st - 3) 0.
Proof.
  intros Hreach Hplay Hout.
  pose proof (Reachable_ok st k Hreach) as Hok.
  assert (Hin : 0 <= targetIndex st < gridSize st * gridSize st).
  { apply (ok_target st Hok). rewrite Hplay. discriminate. }
  assert (Hne : index <> targetIndex st) by lia.
  rewrite step_click_wrong by assumption.
  cbn [fst score timeLeft gameState setTimeLeft currentRound
           gridSize colors targetIndex].
  repeat split. lia.
Qed.

(** ** The best score *)

Lemma bestScoreEffect_settled (st : AppState) :
  (gameState st = GAMEOVER -> score st <= bestScore st) ->
  bestScoreEffect st = st.
Proof.
  intros Hle. destruct (decide (gameState st = GAMEOVER)) as [Hover | Hne].
  - rewrite bestScoreEffect_over by exact Hover.
    rewrite Z.max_l by auto. now destruct st.
  - now apply bestScoreEffect_playing.
Qed.

(** One event either is the tick that ends a playing session, or leaves
    the best score alone. *)
Lemma step_bestScore (e : Event) (st : AppState) (k : nat) :
  SessionOk st ->
  (e = Tick /\ gameState st = PLAYING /\ timeLeft st <= 1)
  \/ (bestScore (step source e st k).1 = bestScore st
      /\ (gameState st = PLAYING -> gameState (step source e st k).1 = PLAYING)).
Proof.
  intros Hok. destruct e as [| index |].
  - right. rewrite step_eq. cbn [fst dispatch]. unfold startGame.
    rewrite bestScoreEffect_playing by (rewrite nextLevel_eq; cbn; discriminate).
    rewrite nextLevel_eq. cbn. auto.
  - right. destruct (decide (gameState st = PLAYING)) as [Hplay | Hidle].
    + destruct (decide (index = targetIndex st)) as [-> | Hne].
      * rewrite step_click_right by exact Hplay.
        rewrite nextLevel_eq. cbn. auto.
      * rewrite step_click_wrong by assumption. cbn. auto.
    + rewrite step_eq. cbn [fst dispatch]. rewrite click_idle by exact Hidle.
      cbn [fst]. rewrite bestScoreEffect_settled by apply (ok_over st Hok).
      split; [reflexivity | intros Hplay; contradiction].
  - destruct (decide (gameState st = PLAYING)) as [Hplay | Hidle].
    + destruct (Z.le_gt_cases (timeLeft st) 1) as [Hle | Hgt]; [left; auto |].
      right. rewrite step_tick_on by assumption. cbn. auto.
    + right. rewrite step_eq. cbn [fst dispatch].
      unfold mret, Rand_ret, tick. cbn [fst].
      destruct (decide (gameState st = PLAYING)); [contradiction |].
      rewrite bestScoreEffect_settled by apply (ok_over st Hok).
      split; [reflexivity | intros Hplay; contradiction].
Qed.

Lemma run_cons (e : Event) (es : list Event) (st : AppState) (k : nat) :
  run source (e :: es) st k =
  run source es (step source e st k).1 (step source e st k).2.
Proof.
  cbn [run]. unfold mbind, Rand_bind. now destruct (step source e st k).
Qed.

Lemma step_bestScore_mono (e : Event) (st : AppState) (k : nat) :
  SessionOk st -> bestScore st <= bestScore (step source e st k).1.
Proof.
  intros Hok.
  destruct (step_bestScore e st k Hok) as [(-> & Hplay & Hle) | [Hsame _]].
  - rewrite step_tick_over by assumption. cbn. lia.
  - lia.
Qed.

Lemma run_bestScore_mono (es : list Event) (st : AppState) (k : nat) :
  SessionOk st -> bestScore st <= bestScore (run source es st k).1.
Proof.
  revert st k. induction es as [| e es IH]; intros st k Hok.
  - cbn. lia.
  - rewrite run_cons.
    pose proof (step_bestScore_mono e st k Hok) as Hstep.
    pose proof (IH _ (step source e st k).2 (step_ok e st k Hok)) as Hrest.
    lia.
Qed.

(** C9. Over the sessions the component can reach, the best score never
    decreases, over one event and over any sequence of events. It changes
    only in the step that takes a playing session to game over, and only
    when the score of that session is strictly above the best score
    recorded before; the new best score is then that score. [startGame]
    leaves the best score as it is. *)
Theorem C9_best_score (st : AppState) (k : nat) (e : Event) (es : list Event) :
  Reachable source st k ->
  let st' := (step source e st k).1 in
  bestScore st <= bestScore st'
  /\ bestScore st <= bestScore (run source es st k).1
  /\ (bestScore st' <> bestScore st ->
      gameState st = PLAYING /\ gameState st' = GAMEOVER
      /\ bestScore st < score st /\ score st' = score st
      /\ bestScore st' = score st)
  /\ (gameState st = PLAYING -> gameState st' = GAMEOVER ->
      bestScore st' = Z.max (bestScore st) (score st))
  /\ bestScore (step source Start st k).1 = bestScore st.
Proof.
  intros Hreach. pose proof (Reachable_ok st k Hreach) as Hok. cbn zeta.
  split; [now apply step_bestScore_mono |].
  split; [now apply run_bestScore_mono |].
  split; [| split].
  - intros Hchanged.
    destruct (step_bestScore e st k Hok) as [(-> & Hplay & Hle) | [Hsame _]];
      [| contradiction].
    revert Hchanged. rewrite step_tick_over by assumption.
    cbn [fst score timeLeft gameState bestScore setTimeLeft setGameState
             setBestScore].
    intros Hchanged. repeat split; try assumption; lia.
  - intros Hplay Hover.
    destruct (step_bestScore e st k Hok) as [(-> & _ & Hle) | [_ Hkeep]].
    + rewrite step_tick_over by assumption. reflexivity.
    + rewrite (Hkeep Hplay) in Hover. discriminate.
  - destruct (step_bestScore Start st k Hok) as [(Hno & _) | [Hsame _]];
      [discriminate | exact Hsame].
Qed.

End GameFacts.

(** ** Sample sessions, evaluated *)

Example afterStart_value :
  afterStart =
  {| gameState := PLAYING; score := 0; timeLeft := 15; gridSize := 2;
     colors := ["hsl(0, 55%, 30%)"; "hsl(0, 40%, 30%)";
                "hsl(0, 40%, 30%)"; "hsl(0, 40%, 30%)"];
     targetIndex := 0; bestScore := 0 |}.
Proof. vm_compute. reflexivity. Qed.

Example afterStartHigh_value :
  afterStartHigh =
  {| gameState := PLAYING; score := 0; timeLeft := 15; gridSize := 2;
     colors := ["hsl(270, 70%, 60%)"; "hsl(270, 70%, 60%)";
                "hsl(270, 70%, 60%)"; "hsl(270, 70%, 45%)"];
     targetIndex := 3; bestScore := 0 |}.
Proof. vm_compute. reflexivity. Qed.

Lemma afterStart_reachable : Reachable zeroSource afterStart 5%nat.
Proof.
  apply (reach_step zeroSource Start initialState 0%nat); [apply reach_init |].
  vm_compute. reflexivity.
Qed.

Lemma afterStartHigh_reachable : Reachable highSource afterStartHigh 5%nat.
Proof.
  apply (reach_step highSource Start initialState 0%nat); [apply reach_init |].
  vm_compute. reflexivity.
Qed.

(** A whole session: start, two right guesses, then the clock runs out
    after a wrong guess; the best score becomes 2 and a new start keeps
    it. *)
Example session_best_score :
  let es := [Start; Click 0; Click 0; Click 1] ++ replicate 16%nat Tick in
  let st := (run zeroSource es initialState 0%nat).1 in
  gameState st = GAMEOVER /\ score st = 2 /\ timeLeft st = 0 /\ bestScore st = 2
  /\ bestScore (run zeroSource (es ++ [Start]) initialState 0%nat).1 = 2
  /\ score (run zeroSource (es ++ [Start]) initialState 0%nat).1 = 0.
Proof. vm_compute. repeat split; reflexivity. Qed.

(** C1, as the specification states it, fails: after the start button
    the grid is 2 x 2 and 15 seconds are left; a click with index 4, or
    with index -1, is outside the grid, and it leaves 12 seconds. *)
Lemma C1_out_of_range_guess_not_ignored :
  timeLeft (step zeroSource (Click 4) afterStart 5%nat).1 = 12
  /\ timeLeft (step zeroSource (Click (-1)) afterStart 5%nat).1 = 12
  /\ ~ (forall (source : nat -> Draw) (st : AppState) (k : nat) (index : Z),
          Reachable source st k ->
          gameState st = PLAYING ->
          index < 0 \/ gridSize st * gridSize st <= index ->
          let st' := (step source (Click index) st k).1 in
          score st' = score st
          /\ timeLeft st' = timeLeft st
          /\ gameState st' = gameState st
          /\ currentRound st' = currentRound st).
Proof.
  split; [vm_compute; reflexivity |].
  split; [vm_compute; reflexivity |].
  intros Hclaim.
  destruct (Hclaim zeroSource afterStart 5%nat 4 afterStart_reachable eq_refl)
    as (_ & Htime & _).
  - right. vm_compute. discriminate.
  - vm_compute in Htime. discriminate Htime.
Qed.

Lemma C1_out_of_range_guess_penalised_witness :
  Reachable zeroSource afterStart 5%nat
  /\ gameState afterStart = PLAYING
  /\ (4 < 0 \/ gridSize afterStart * gridSize afterStart <= 4)
  /\ (let st' := (step zeroSource (Click 4) afterStart 5%nat).1 in
      score st' = score afterStart
      /\ gameState st' = gameState afterStart
      /\ currentRound st' = currentRound afterStart
      /\ timeLeft st' = Z.max (timeLeft afterStart - 3) 0).
Proof.
  assert (Hout : 4 < 0 \/ gridSize afterStart * gridSize afterStart <= 4).
  { right. vm_compute. discriminate. }
  split; [exact afterStart_reachable |].
  split; [reflexivity |].
  split; [exact Hout |].
  exact (C1_out_of_range_guess_penalised zeroSource afterStart 5%nat 4
           afterStart_reachable eq_refl Hout).
Defined.

Lemma C2_correct_guess_witness :
  gameState afterStartHigh = PLAYING
  /\ (let st' := (step highSource (Click (targetIndex afterStartHigh))
                       afterStartHigh 5%nat).1 in
      let base := (generateColor highSource (score afterStartHigh + 1) 5%nat).1.1 in
      let target := (generateColor highSource (score afterStartHigh + 1) 5%nat).1.2 in
      score st' = score afterStartHigh + 1
      /\ timeLeft st' = Z.min (timeLeft afterStartHigh + 2) 30
      /\ currentRound st'
         = currentRound (nextLevel highSource (score afterStartHigh + 1)
                                   afterStartHigh 5%nat).1
      /\ gameState st' = PLAYING
      /\ bestScore st' = bestScore afterStartHigh
      /\ (timeLeft afterStartHigh = 29 -> timeLeft st' = 30)
      /\ (step highSource (Click (targetIndex afterStartHigh))
               afterStartHigh 5%nat).2 = (5 + 5)%nat
      /\ gridSize st' = gridSizeSpec (score afterStartHigh + 1)
      /\ length (colors st') = Z.to_nat (gridSize st' * gridSize st')
      /\ targetIndex st'
         = floorMul (highSource (4 + 5)%nat) (gridSize st' * gridSize st')
      /\ 0 <= targetIndex st' < gridSize st' * gridSize st'
      /\ colors st' !! Z.to_nat (targetIndex st') = Some target
      /\ (forall i : nat, (i < length (colors st'))%nat ->
            i <> Z.to_nat (targetIndex st') -> colors st' !! i = Some base)
      /\ target <> base).
Proof.
  split; [reflexivity |].
  exact (C2_correct_guess highSource afterStartHigh 5%nat eq_refl).
Defined.

Lemma C3_wrong_guess_witness :
  gameState afterStart = PLAYING
  /\ 1 <> targetIndex afterStart
  /\ (let st' := (step zeroSource (Click 1) afterStart 5%nat).1 in
      timeLeft st' = Z.max (timeLeft afterStart - 3) 0
      /\ score st' = score afterStart
      /\ gameState st' = gameState afterStart
      /\ currentRound st' = currentRound afterStart
      /\ bestScore st' = bestScore afterStart).
Proof.
  assert (Hne : 1 <> targetIndex afterStart) by (vm_compute; discriminate).
  split; [reflexivity |].
  split; [exact Hne |].
  exact (C3_wrong_guess zeroSource afterStart 5%nat 1 eq_refl Hne).
Defined.

Lemma C4_countdown_tick_witness :
  gameState afterStart = PLAYING
  /\ (let st' := (step zeroSource Tick afterStart 5%nat).1 in
      timeLeft st' = Z.max (timeLeft afterStart - 1) 0
      /\ (timeLeft afterStart - 1 <= 0 -> gameState st' = GAMEOVER)
      /\ (0 < timeLeft afterStart - 1 -> gameState st' = PLAYING)
      /\ (timeLeft afterStart = 1 -> timeLeft st' = 0 /\ gameState st' = GAMEOVER)
      /\ 0 <= timeLeft st'
      /\ score st' = score afterStart
      /\ currentRound st' = currentRound afterStart).
Proof.
  split; [reflexivity |].
  exact (C4_countdown_tick zeroSource afterStart 5%nat eq_refl).
Defined.

Lemma C8_color_pair_channels_witness :
  0 <= 7
  /\ (let base := (generateChannels highSource 7 0%nat).1.1 in
      let target := (generateChannels highSource 7 0%nat).1.2 in
      (generateColor highSource 7 0%nat).1 = (hsl base, hsl target)
      /\ 0 <= h base < 360 /\ 40 <= s base < 80 /\ 30 <= l base < 70
      /\ h target = h base
      /\ ((s target = (if s base >? 50 then s base - delta 7 else s base + delta 7)
           /\ l target = l base)
          \/ (l target = (if l base >? 50 then l base - delta 7 else l base + delta 7)
              /\ s target = s base))
      /\ 0 <= s target <= 100 /\ 0 <= l target <= 100).
Proof.
  assert (Hsc : 0 <= 7) by (vm_compute; discriminate).
  split; [exact Hsc |].
  exact (C8_color_pair_channels highSource 7 0%nat Hsc).
Defined.

Lemma C9_best_score_witness :
  Reachable zeroSource afterStart 5%nat
  /\ (let st' := (step zeroSource Tick afterStart 5%nat).1 in
      bestScore afterStart <= bestScore st'
      /\ bestScore afterStart
         <= bestScore (run zeroSource [Click 0; Tick] afterStart 5%nat).1
      /\ (bestScore st' <> bestScore afterStart ->
          gameState afterStart = PLAYING /\ gameState st' = GAMEOVER
          /\ bestScore afterStart < score afterStart
          /\ score st' = score afterStart
          /\ bestScore st' = score afterStart)
      /\ (gameState afterStart = PLAYING -> gameState st' = GAMEOVER ->
          bestScore st' = Z.max (bestScore afterStart) (score afterStart))
      /\ bestScore (step zeroSource Start afterStart 5%nat).1 = bestScore afterStart).
Proof.
  split; [exact afterStart_reachable |].
  exact (C9_best_score zeroSource afterStart 5%nat Tick [Click 0; Tick]
           afterStart_reachable).
Defined.

(** * Further properties of the component *)

(** ** Characters of printed numbers *)

Lemma uint_chars (d : Decimal.uint) (c : ascii) :
  occurs c (NilEmpty.string_of_uint d) ->
  c <> ","%char /\ c <> "%"%char /\ c <> "-"%char.
Proof.
  induction d as [| d IH | d IH | d IH | d IH | d IH | d IH | d IH | d IH
                  | d IH | d IH]; cbn [NilEmpty.string_of_uint occurs];
    [intros []
    | intros [-> | Hin]; [repeat split; discriminate | now apply IH] ..].
Qed.

Lemma nilzero_uint_chars (d : Decimal.uint) (c : ascii) :
  occurs c (NilZero.string_of_uint d) ->
  c <> ","%char /\ c <> "%"%char /\ c <> "-"%char.
Proof.
  destruct d; try apply uint_chars.
  cbn. intros [-> | []]. repeat split; discriminate.
Qed.

(** A printed integer has no comma and no percent sign. *)
Lemma numberToString_chars (n : Z) (c : ascii) :
  occurs c (numberToString n) -> c <> ","%char /\ c <> "%"%char.
Proof.
  unfold numberToString, NilZero.string_of_int.
  destruct (Z.to_int n) as [d | d].
  - intros Hin. now destruct (nilzero_uint_chars d c Hin) as (? & ? & _).
  - cbn [occurs]. intros [-> | Hin].
    + split; discriminate.
    + now destruct (nilzero_uint_chars d c Hin) as (? & ? & _).
Qed.

(** A printed natural number has no minus sign. *)
Lemma numberToString_nat_chars (i : nat) (c : ascii) :
  occurs c (numberToString (Z.of_nat i)) -> c <> "-"%char.
Proof.
  unfold numberToString, NilZero.string_of_int.
  destruct (Z.of_nat i) as [| p | p] eqn:Hi; cbn [Z.to_int]; [| | lia].
  - intros Hin. now destruct (nilzero_uint_chars _ c Hin) as (_ & _ & ?).
  - intros Hin. now destruct (nilzero_uint_chars _ c Hin) as (_ & _ & ?).
Qed.

(** Two texts cut at the first occurrence of a character are cut at the
    same place. *)
Lemma append_split_unique (d : ascii) (a b x y : string) :
  ~ occurs d a -> ~ occurs d b ->
  a +:+ String d x = b +:+ String d y -> a = b /\ x = y.
Proof.
  revert b. induction a as [| c a IH]; intros [| c' b] Ha Hb Heq.
  - change (String d x = String d y) in Heq. now injection Heq as ->.
  - rewrite append_cons in Heq. change (String d x = String c' (b +:+ String d y)) in Heq.
    injection Heq as <- _. exfalso. apply Hb. now left.
  - rewrite append_cons in Heq. change (String c (a +:+ String d x) = String d y) in Heq.
    injection Heq as -> _. exfalso. apply Ha. now left.
  - rewrite !append_cons in Heq. injection Heq as -> Heq.
    assert (Ha' : ~ occurs d a) by (intros Hin; apply Ha; now right).
    assert (Hb' : ~ occurs d b) by (intros Hin; apply Hb; now right).
    destruct (IH b Ha' Hb' Heq) as [-> ->]. split; reflexivity.
Qed.

Section MoreFacts.

Variable source : nat -> Draw.

(** ** CSS text, continued *)

(** X1. Colours with the same CSS text have the same three channels:
    the template [hsl(h, s%, l%)] loses nothing. *)
Theorem hsl_inj (c1 c2 : Color) : hsl c1 = hsl c2 -> c1 = c2.
Proof.
  destruct c1 as [h1 s1 l1], c2 as [h2 s2 l2]. unfold hsl. cbn [h s l].
  intros Heq. apply append_cancel_l in Heq.
  change (", " +:+ ?t) with (String "," (" " +:+ t)) in Heq.
  apply append_split_unique in Heq as [Hh Heq];
    try (intros Hin; now destruct (numberToString_chars _ _ Hin)).
  apply append_cancel_l in Heq.
  change ("%, " +:+ ?t) with (String "%" (", " +:+ t)) in Heq.
  apply append_split_unique in Heq as [Hs Heq];
    try (intros Hin; now destruct (numberToString_chars _ _ Hin)).
  apply append_cancel_l in Heq.
  apply (append_cancel_r "%)") in Heq.
  apply numberToString_inj in Hh, Hs, Heq. now subst.
Qed.

(** ** One event, case by case *)

Lemma step_start (st : AppState) (k : nat) :
  step source Start st k =
  nextLevel source 0
    (setGameState PLAYING (setTimeLeft (fun _ => INITIAL_TIME) (setScore 0 st))) k.
Proof.
  rewrite step_eq. cbn [dispatch]. unfold startGame. rewrite nextLevel_eq.
  cbn zeta. cbn [fst snd]. rewrite bestScoreEffect_playing; [reflexivity |].
  cbn. discriminate.
Qed.

Lemma step_idle (e : Event) (st : AppState) (k : nat) :
  SessionOk st -> e <> Start -> gameState st <> PLAYING ->
  step source e st k = (st, k).
Proof.
  intros Hok Hns Hidle. rewrite step_eq.
  destruct e as [| index |]; [contradiction | |]; cbn [dispatch].
  - rewrite click_idle by exact Hidle. cbn [fst snd].
    now rewrite bestScoreEffect_settled by apply (ok_over st Hok).
  - unfold mret, Rand_ret, tick. cbn [fst snd].
    destruct (decide (gameState st = PLAYING)); [contradiction |].
    now rewrite bestScoreEffect_settled by apply (ok_over st Hok).
Qed.

Lemma step_cases (e : Event) (st : AppState) (k : nat) :
  SessionOk st -> StepCase source e st k.
Proof.
  intros Hok. destruct e as [| index |].
  - apply case_start; [reflexivity | apply step_start].
  - destruct (decide (gameState st = PLAYING)) as [Hplay | Hidle].
    + destruct (decide (index = targetIndex st)) as [-> | Hne].
      * apply case_right; auto using step_click_right.
      * apply (case_wrong _ _ _ _ index); auto using step_click_wrong.
    + apply case_idle; [discriminate | exact Hidle |].
      apply step_idle; [exact Hok | discriminate | exact Hidle].
  - destruct (decide (gameState st = PLAYING)) as [Hplay | Hidle].
    + destruct (Z.le_gt_cases (timeLeft st) 1) as [Hle | Hgt].
      * apply case_tick_over; auto using step_tick_over.
      * apply case_tick_on; auto using step_tick_on.
    + apply case_idle; [discriminate | exact Hidle |].
      apply step_idle; [exact Hok | discriminate | exact Hidle].
Qed.

(** ** Start and idle clicks *)

(** X2. The start button gives a fresh session whatever the state it is
    pressed in: playing, score 0, 15 seconds, a 2 x 2 grid of 4 tiles
    with the target among them; the best score is kept, and five draws
    are used. *)
Theorem start_gives_fresh_session (st : AppState) (k : nat) :
  let st' := (step source Start st k).1 in
  gameState st' = PLAYING
  /\ score st' = 0
  /\ timeLeft st' = INITIAL_TIME
  /\ gridSize st' = MIN_GRID_SIZE
  /\ length (colors st') = 4%nat
  /\ 0 <= targetIndex st' < 4
  /\ bestScore st' = bestScore st
  /\ (step source Start st k).2 = (5 + k)%nat
  /\ currentRound st' = currentRound (step source Start initialState k).1.
Proof.
  cbn zeta. rewrite !step_start, !nextLevel_eq. cbn zeta.
  cbn [fst snd gameState score timeLeft gridSize colors targetIndex bestScore
           setGameState setTimeLeft setScore currentRound].
  repeat split.
  - now rewrite length_insert, length_replicate.
  - apply (targetIndex_range 0).
  - apply (targetIndex_range 0).
Qed.

(** X3. Outside a game (before the first start, or after game over) a
    click on a block changes nothing and uses no draw. *)
Theorem click_outside_game_is_inert (st : AppState) (k : nat) (index : Z) :
  Reachable source st k ->
  gameState st <> PLAYING ->
  step source (Click index) st k = (st, k).
Proof.
  intros Hreach Hidle. apply step_idle.
  - now apply (Reachable_ok source st k).
  - discriminate.
  - exact Hidle.
Qed.

(** ** What every reachable session satisfies *)

Lemma currentRound_nextLevel (sc : Z) (st st' : AppState) (k : nat) :
  currentRound (nextLevel source sc st k).1
  = currentRound (nextLevel source sc st' k).1.
Proof. now rewrite !nextLevel_eq. Qed.

Lemma nextLevel_gameState (sc : Z) (st : AppState) (k : nat) :
  gameState (nextLevel source sc st k).1 = gameState st.
Proof. now rewrite nextLevel_eq. Qed.

Lemma roundBuiltFor_nextLevel (sc : Z) (st : AppState) (k : nat) :
  score st = sc -> roundBuiltFor source (nextLevel source sc st k).1.
Proof.
  intros Hsc. exists k.
  replace (score (nextLevel source sc st k).1) with sc
    by (rewrite nextLevel_eq; cbn; congruence).
  apply currentRound_nextLevel.
Qed.

Lemma roundBuiltFor_same (st st' : AppState) :
  score st' = score st -> currentRound st' = currentRound st ->
  roundBuiltFor source st -> roundBuiltFor source st'.
Proof.
  intros Hs Hr [k0 Hk0]. exists k0. rewrite Hs, Hr, Hk0.
  apply currentRound_nextLevel.
Qed.

Lemma step_phase_ok (e : Event) (st : AppState) (k : nat) :
  SessionOk st -> PhaseOk source st -> PhaseOk source (step source e st k).1.
Proof.
  intros Hok [Hstart Hover Hround].
  destruct (step_cases e st k Hok)
    as [_ Heq | _ Hplay Heq | index _ _ Hplay Heq | _ Hplay _ Heq
        | _ Hplay _ Heq | _ _ Heq]; rewrite Heq.
  - constructor; rewrite ?nextLevel_gameState; try discriminate.
    intros _. now apply roundBuiltFor_nextLevel.
  - constructor; rewrite ?nextLevel_gameState;
      cbn [gameState setTimeLeft setScore]; rewrite ?Hplay; try discriminate.
    intros _. now apply roundBuiltFor_nextLevel.
  - cbn [fst].
    constructor; cbn [gameState setTimeLeft]; rewrite Hplay; try discriminate.
    intros Hns. apply (roundBuiltFor_same st); [reflexivity .. |].
    apply Hround. rewrite Hplay. discriminate.
  - cbn [fst].
    constructor; cbn [gameState setTimeLeft]; rewrite Hplay; try discriminate.
    intros Hns. apply (roundBuiltFor_same st); [reflexivity .. |].
    apply Hround. rewrite Hplay. discriminate.
  - cbn [fst].
    constructor; cbn [gameState timeLeft setTimeLeft setGameState setBestScore];
      try discriminate; [reflexivity |].
    intros Hns. apply (roundBuiltFor_same st); [reflexivity .. |].
    apply Hround. rewrite Hplay. discriminate.
  - now constructor.
Qed.

Lemma initialState_phase_ok : PhaseOk source initialState.
Proof. constructor; cbn; try discriminate; [reflexivity | now intros []]. Qed.

Lemma Reachable_phase_ok (st : AppState) (k : nat) :
  Reachable source st k -> PhaseOk source st.
Proof.
  induction 1 as [| e st k st' k' Hreach IH Hstep].
  - apply initialState_phase_ok.
  - replace st' with (step source e st k).1 by now rewrite Hstep.
    apply step_phase_ok; [now apply (Reachable_ok source st k) | exact IH].
Qed.

(** X4. In every session the component can reach: the score and the
    best score are not negative, the time left is within 0..30; a
    session that has not been started is the initial one (nothing goes
    back to the start screen); and at game over the clock is at 0 and the
    best score is at least the score. *)
Theorem reachable_session_bounds (st : AppState) (k : nat) :
  Reachable source st k ->
  0 <= score st
  /\ 0 <= bestScore st
  /\ 0 <= timeLeft st <= 30
  /\ (gameState st = START -> st = initialState)
  /\ (gameState st = GAMEOVER -> timeLeft st = 0 /\ score st <= bestScore st).
Proof.
  intros Hreach.
  destruct (Reachable_ok source st k Hreach) as [Hs Hb Ht Ho _ _ _].
  destruct (Reachable_phase_ok st k Hreach) as [Hstart Hover _].
  repeat split; auto; lia.
Qed.

(** The round [nextLevel] builds, in terms of the two colours. *)
Lemma nextLevel_round_shape (sc : Z) (st : AppState) (k0 : nat) :
  exists (base target : Color) (i : Z),
    currentRound (nextLevel source sc st k0).1
    = (newGridSize sc,
       <[Z.to_nat i := hsl target]>
         (replicate (Z.to_nat (newGridSize sc * newGridSize sc)) (hsl base)),
       i)
    /\ 0 <= i < newGridSize sc * newGridSize sc
    /\ h target = h base
    /\ Z.abs (s target - s base) + Z.abs (l target - l base) = delta sc
    /\ ((Z.abs (s target - s base) = delta sc /\ l target = l base)
        \/ (Z.abs (l target - l base) = delta sc /\ s target = s base))
    /\ hsl target <> hsl base.
Proof.
  exists (generateChannels source sc k0).1.1, (generateChannels source sc k0).1.2,
         (floorMul (source (S (S (S (S k0))))) (newGridSize sc * newGridSize sc)).
  split; [| split; [apply targetIndex_range |]].
  - rewrite nextLevel_eq, generateColor_eq. reflexivity.
  - pose proof (generateColor_distinct source sc k0) as Hne.
    rewrite generateColor_eq in Hne. cbn [fst snd] in Hne.
    split; [| split; [| split; [| congruence]]].
    + rewrite generateChannels_eq. reflexivity.
    + rewrite generateChannels_eq. cbn zeta. cbn [fst snd s l].
      pose proof (delta_ge_1 sc) as Hd.
      destruct (gtHalf _);
        repeat match goal with
               | |- context [?a >? ?b] => destruct (Z.gtb_spec a b)
               end; lia.
    + rewrite generateChannels_eq. cbn zeta. cbn [fst snd s l].
      pose proof (delta_ge_1 sc) as Hd.
      destruct (gtHalf _);
        repeat match goal with
               | |- context [?a >? ?b] => destruct (Z.gtb_spec a b)
               end;
        first [left; split; lia | right; split; lia].
Qed.

(** X5. In every reachable session past the start screen, the tiles on
    display are a well-formed round for the current score: gridSize *
    gridSize tiles, where gridSize is the step function of the score
    (what the footer shows as Grid); the target index is a position of
    the grid, the tile there is one colour and all other tiles are
    another; the two have the same hue, and exactly one of saturation and
    lightness differs between them, by exactly the Diff the footer shows,
    which is within 1..15; the other channel is the same. *)
Theorem displayed_round_fits_score (st : AppState) (k : nat) :
  Reachable source st k ->
  gameState st <> START ->
  exists base target : Color,
    footerGrid (render st) = gridSizeSpec (score st)
    /\ length (colors st) = Z.to_nat (gridSize st * gridSize st)
    /\ 0 <= targetIndex st < gridSize st * gridSize st
    /\ colors st !! Z.to_nat (targetIndex st) = Some (hsl target)
    /\ (forall i : nat, (i < length (colors st))%nat ->
          i <> Z.to_nat (targetIndex st) -> colors st !! i = Some (hsl base))
    /\ hsl target <> hsl base
    /\ h target = h base
    /\ Z.abs (s target - s base) + Z.abs (l target - l base)
       = footerDiff (render st)
    /\ ((Z.abs (s target - s base) = footerDiff (render st)
         /\ l target = l base)
        \/ (Z.abs (l target - l base) = footerDiff (render st)
            /\ s target = s base))
    /\ 1 <= footerDiff (render st) <= 15.
Proof.
  intros Hreach Hns.
  destruct (Reachable_phase_ok st k Hreach) as [_ _ Hround].
  destruct (Hround Hns) as [k0 Hk0].
  destruct (nextLevel_round_shape (score st) st k0)
    as (base & target & i & Hshape & Hi & Hh & Hd & Hone & Hne).
  rewrite Hshape in Hk0. unfold currentRound in Hk0.
  injection Hk0 as Hg Hc Ht.
  pose proof (delta_ge_1 (score st)) as Hd1.
  pose proof (delta_le_15 (score st)
                (ok_score st (Reachable_ok source st k Hreach))) as Hd15.
  exists base, target. cbn [render footerGrid footerDiff].
  fold (delta (score st)).
  rewrite Hc, Hg, Ht, length_insert, length_replicate.
  split; [apply newGridSize_spec |].
  split; [reflexivity |].
  split; [exact Hi |].
  split; [apply list_lookup_insert_eq; rewrite length_replicate; lia |].
  split.
  { intros j Hj Hneq. rewrite list_lookup_insert_ne by congruence.
    now apply lookup_replicate_2. }
  split; [exact Hne |].
  split; [exact Hh |].
  split; [exact Hd |].
  split; [exact Hone |].
  lia.
Qed.

(** ** The countdown *)

Lemma run_app (es1 es2 : list Event) (st : AppState) (k : nat) :
  run source (es1 ++ es2) st k =
  run source es2 (run source es1 st k).1 (run source es1 st k).2.
Proof.
  revert st k. induction es1 as [| e es1 IH]; intros st k; [reflexivity |].
  change ((e :: es1) ++ es2) with (e :: (es1 ++ es2)).
  rewrite !run_cons. apply IH.
Qed.

Lemma ticks_while_time (n : nat) (st : AppState) (k : nat) :
  gameState st = PLAYING -> Z.of_nat n < timeLeft st ->
  run source (replicate n Tick) st k
  = (setTimeLeft (fun prev => prev - Z.of_nat n) st, k).
Proof.
  revert st. induction n as [| n IH]; intros st Hplay Hlt.
  - cbn. unfold mret, Rand_ret, setTimeLeft. f_equal.
    destruct st; cbn. f_equal. lia.
  - cbn [replicate]. rewrite run_cons, step_tick_on by (try assumption; lia).
    cbn [fst snd]. rewrite IH by (cbn [gameState timeLeft setTimeLeft]; auto; lia).
    unfold setTimeLeft. cbn. f_equal. f_equal. lia.
Qed.

(** X6. With no click, a playing session with t >= 1 seconds left keeps
    playing through the first t - 1 ticks, losing one second per tick and
    nothing else, and the t-th tick ends the game with 0 seconds, the
    score as it was and the best score raised to it if it was lower. *)
Theorem countdown_without_clicks (st : AppState) (k : nat) :
  gameState st = PLAYING ->
  1 <= timeLeft st ->
  (forall n : nat, Z.of_nat n < timeLeft st ->
     let st' := (run source (replicate n Tick) st k).1 in
     gameState st' = PLAYING
     /\ timeLeft st' = timeLeft st - Z.of_nat n
     /\ score st' = score st
     /\ currentRound st' = currentRound st
     /\ bestScore st' = bestScore st)
  /\ (let st' := (run source (replicate (Z.to_nat (timeLeft st)) Tick) st k).1 in
      gameState st' = GAMEOVER
      /\ timeLeft st' = 0
      /\ score st' = score st
      /\ bestScore st' = Z.max (bestScore st) (score st)).
Proof.
  intros Hplay Ht. split.
  - intros n Hn. cbn zeta. rewrite ticks_while_time by assumption.
    cbn. auto.
  - cbn zeta.
    replace (Z.to_nat (timeLeft st)) with (Z.to_nat (timeLeft st - 1) + 1)%nat by lia.
    rewrite replicate_add, run_app.
    rewrite (ticks_while_time (Z.to_nat (timeLeft st - 1)) st k)
      by (try assumption; lia).
    cbn [fst snd replicate].
    rewrite run_cons.
    rewrite step_tick_over
      by (cbn [gameState timeLeft setTimeLeft]; try assumption; lia).
    cbn. auto.
Qed.

(** ** The score *)

(** X7. Apart from the start button, an event either leaves the score as
    it is or is a click on the target of a playing session, which adds
    exactly 1: the score never goes down during a game, and wrong
    clicks, idle clicks and ticks never change it. *)
Theorem score_changes_by_right_click_only (e : Event) (st : AppState) (k : nat) :
  e <> Start ->
  let st' := (step source e st k).1 in
  score st' = score st
  \/ (e = Click (targetIndex st) /\ gameState st = PLAYING
      /\ score st' = score st + 1).
Proof.
  intros Hns. cbn zeta. rewrite step_eq. cbn [fst].
  assert (Heff : forall x, score (bestScoreEffect x) = score x).
  { intros x. unfold bestScoreEffect.
    now destruct (bool_decide (gameState x = GAMEOVER) && (score x >? bestScore x)). }
  rewrite Heff.
  destruct e as [| index |]; [contradiction | |]; cbn [dispatch].
  - destruct (decide (gameState st = PLAYING)) as [Hplay | Hidle].
    + destruct (decide (index = targetIndex st)) as [-> | Hne].
      * right. rewrite click_right, nextLevel_eq by exact Hplay. cbn. auto.
      * left. now rewrite click_wrong by assumption.
    + left. now rewrite click_idle by exact Hidle.
  - left. unfold mret, Rand_ret, tick. cbn [fst].
    destruct (decide (gameState st = PLAYING)); [| reflexivity].
    unfold timerCallback. now destruct (timeLeft st <=? 1).
Qed.

(** ** The view *)

(** X8. [getRank] cuts the scores into five bands, below 10, 10..19,
    20..34, 35..49 and from 50 on: two scores get the same rank exactly
    when they are in the same band, and the title alone, or the colour
    class alone, tells the band. *)
Theorem getRank_bands (a b : Z) :
  let sameBand :=
    (a < 10 /\ b < 10) \/ (10 <= a < 20 /\ 10 <= b < 20)
    \/ (20 <= a < 35 /\ 20 <= b < 35) \/ (35 <= a < 50 /\ 35 <= b < 50)
    \/ (50 <= a /\ 50 <= b) in
  (getRank a = getRank b <-> sameBand)
  /\ (title (getRank a) = title (getRank b) <-> sameBand)
  /\ (color (getRank a) = color (getRank b) <-> sameBand).
Proof.
  cbn zeta. unfold getRank.
  repeat match goal with
         | |- context [?x <? ?y] => destruct (Z.ltb_spec x y)
         end; cbn [title color];
    repeat split; intros; first [lia | discriminate | reflexivity | exfalso; lia].
Qed.

(** X9. The game-over overlay is shown exactly at game over, never
    together with the start overlay. In a reachable session it shows a
    best score that is at least the score shown, the rank of that score,
    and a rank number that is at least 1. *)
Theorem game_over_panel (st : AppState) (k : nat) :
  Reachable source st k ->
  (is_Some (gameOverOverlay (render st)) <-> gameState st = GAMEOVER)
  /\ (is_Some (gameOverOverlay (render st)) -> startOverlay (render st) = false)
  /\ (forall p : GameOverPanel, gameOverOverlay (render st) = Some p ->
        panelScore p = score st
        /\ panelScore p <= panelBest p
        /\ panelRank p = getRank (panelScore p)
        /\ 1 <= panelRankNumber p
        /\ 5 * (panelRankNumber p - 1) <= panelScore p < 5 * panelRankNumber p).
Proof.
  intros Hreach.
  destruct (Reachable_ok source st k Hreach) as [Hs _ _ Ho _ _ _].
  cbn [render gameOverOverlay startOverlay].
  destruct (decide (gameState st = GAMEOVER)) as [Hover | Hne].
  - split; [split; [auto | intros _; now eexists] |].
    split; [intros _; apply bool_decide_eq_false_2; rewrite Hover; discriminate |].
    intros p [= <-]. cbn [panelScore panelBest panelRank panelRankNumber].
    pose proof (Ho Hover).
    pose proof (Z.div_mod (score st) 5 ltac:(lia)).
    pose proof (Z.mod_pos_bound (score st) 5 ltac:(lia)).
    repeat split; lia.
  - split; [split; [intros [p Hp]; discriminate | contradiction] |].
    split; [intros [p Hp]; discriminate |].
    intros p Hp. discriminate.
Qed.

(** X10. The grid shows one button per tile, in order, with the tile
    as its colour and a click handler for its own position; the React
    keys of the buttons are pairwise different. In a reachable session
    every button's position is inside the grid, so the view never sends
    an index outside it; past the start screen the button at the target
    index exists, and before the first start there is no button. *)
Theorem rendered_blocks (st : AppState) (k : nat) :
  Reachable source st k ->
  length (blocks (render st)) = length (colors st)
  /\ NoDup (key <$> blocks (render st))
  /\ (forall (i : nat) (b : Block), blocks (render st) !! i = Some b ->
        onClick b = Click (Z.of_nat i)
        /\ colors st !! i = Some (backgroundColor b)
        /\ 0 <= Z.of_nat i < gridSize st * gridSize st)
  /\ (gameState st <> START ->
      exists b : Block,
        blocks (render st) !! Z.to_nat (targetIndex st) = Some b
        /\ onClick b = Click (targetIndex st))
  /\ (gameState st = START -> blocks (render st) = []).
Proof.
  intros Hreach.
  pose proof (Reachable_ok source st k Hreach) as Hok.
  destruct (Reachable_phase_ok st k Hreach) as [Hstart _ _].
  cbn [render blocks]. unfold renderBlocks.
  split; [apply length_imap |].
  split.
  { apply NoDup_alt. intros i j x Hi Hj.
    rewrite list_lookup_fmap, list_lookup_imap in Hi, Hj.
    destruct (colors st !! i) as [ci |]; [| discriminate].
    destruct (colors st !! j) as [cj |]; [| discriminate].
    cbn in Hi, Hj. injection Hi as Hi. injection Hj as Hj.
    rewrite <- Hj in Hi.
    change ("-" +:+ ?t) with (String "-" t) in Hi.
    apply append_split_unique in Hi as [Hi _];
      try (intros Hin; now apply (numberToString_nat_chars _ _ Hin)).
    apply numberToString_inj in Hi. lia. }
  split.
  { intros i b Hb. rewrite list_lookup_imap in Hb.
    destruct (colors st !! i) as [c |] eqn:Hc; [| discriminate].
    injection Hb as <-. cbn [onClick backgroundColor].
    split; [reflexivity |]. split; [reflexivity |].
    apply lookup_lt_Some in Hc.
    destruct (decide (gameState st = START)) as [Hs | Hns].
    - rewrite (Hstart Hs) in Hc. cbn in Hc. lia.
    - rewrite (ok_tiles st Hok Hns) in Hc. lia. }
  split.
  { intros Hns. pose proof (ok_target st Hok Hns) as Ht.
    pose proof (ok_tiles st Hok Hns) as Hl.
    destruct (lookup_lt_is_Some_2 (colors st) (Z.to_nat (targetIndex st)))
      as [c Hc]; [lia |].
    eexists. rewrite list_lookup_imap, Hc. cbn.
    split; [reflexivity |]. cbn. f_equal. lia. }
  intros Hs. now rewrite (Hstart Hs).
Qed.

(** ** The interval *)

Lemma clearCurrent_none (tm : Timers) :
  live tm = ∅ -> live (clearCurrent tm) = ∅.
Proof.
  intros Hlive. unfold clearCurrent.
  destruct (timerRef tm); cbn [live clearInterval]; rewrite Hlive;
    [apply empty_difference_L | reflexivity].
Qed.

Lemma clearCurrent_one (tm : Timers) (id : positive) :
  timerRef tm = Some id -> live tm = {[id]} -> live (clearCurrent tm) = ∅.
Proof.
  intros Href Hlive. unfold clearCurrent. rewrite Href.
  cbn [live clearInterval]. rewrite Hlive. apply difference_diag_L.
Qed.

Lemma commitTimer_ok (before after : GameState) (tm : Timers) :
  TimersOk before tm -> TimersOk after (commitTimer before after tm).
Proof.
  intros [Hplay Hidle]. unfold commitTimer.
  destruct (decide (before = after)) as [<- | Hchange]; [now split |].
  unfold timerEffect, timerCleanup.
  destruct (decide (after = PLAYING)) as [-> | Hafter].
  - cbn [setInterval nextId live timerRef].
    split; [| intros Hne; now contradiction Hne].
    intros _. eexists. split; [reflexivity |].
    rewrite (clearCurrent_none tm (Hidle Hchange)). apply union_empty_r_L.
  - split; [intros Hp; contradiction |]. intros _.
    apply clearCurrent_none.
    destruct (decide (before = PLAYING)) as [Hb | Hb].
    + destruct (Hplay Hb) as (id & Href & Hlive).
      now apply (clearCurrent_one tm id).
    + now apply clearCurrent_none, Hidle.
Qed.

Lemma worldStep_timers_ok (e : WorldEvent) (w : World) (k : nat) :
  TimersOk (gameState (appState w)) (timers w) ->
  TimersOk (gameState (appState (worldStep source e w k).1))
           (timers (worldStep source e w k).1).
Proof.
  intros Hok. destruct e as [| index | id]; cbn [worldStep].
  - unfold mbind, mret, Rand_bind, Rand_ret.
    destruct (step source (eventOf WStart) (appState w) k) as [st' k'].
    cbn. now apply commitTimer_ok.
  - unfold mbind, mret, Rand_bind, Rand_ret.
    destruct (step source (eventOf (WClick index)) (appState w) k) as [st' k'].
    cbn. now apply commitTimer_ok.
  - destruct (decide (id ∈ live (timers w))); unfold mret, Rand_ret; cbn;
      [now apply commitTimer_ok | exact Hok].
Qed.

Lemma initialWorld_timers_ok :
  TimersOk (gameState (appState initialWorld)) (timers initialWorld).
Proof.
  split; cbn; [discriminate | reflexivity].
Qed.

Lemma WorldReachable_timers_ok (w : World) (k : nat) :
  WorldReachable source w k -> TimersOk (gameState (appState w)) (timers w).
Proof.
  induction 1 as [| e w k w' k' _ IH Hstep].
  - apply initialWorld_timers_ok.
  - replace w' with (worldStep source e w k).1 by now rewrite Hstep.
    now apply worldStep_timers_ok.
Qed.

(** X11. Whatever the sequence of starts, clicks and interval firings,
    after every event the component holds exactly one live interval
    while the game is playing, the one [timerRef] names, and no live
    interval in any other phase: intervals are neither leaked nor
    doubled. *)
Theorem one_interval_while_playing (w : World) (k : nat) :
  WorldReachable source w k ->
  (gameState (appState w) = PLAYING ->
   exists id : positive,
     timerRef (timers w) = Some id /\ live (timers w) = {[id]})
  /\ (gameState (appState w) <> PLAYING -> live (timers w) = ∅).
Proof. apply WorldReachable_timers_ok. Qed.

Lemma fire_live (id : positive) (w : World) (k : nat) :
  TimersOk (gameState (appState w)) (timers w) ->
  id ∈ live (timers w) ->
  ((appState (worldStep source (WFire id) w k).1), (worldStep source (WFire id) w k).2)
  = step source Tick (appState w) k.
Proof.
  intros [_ Hidle] Hin.
  assert (Hplay : gameState (appState w) = PLAYING).
  { destruct (decide (gameState (appState w) = PLAYING)) as [Hp | Hn]; [exact Hp |].
    rewrite (Hidle Hn) in Hin. now apply not_elem_of_empty in Hin. }
  cbn [worldStep]. destruct (decide (id ∈ live (timers w))); [| contradiction].
  rewrite step_eq. cbn [dispatch]. unfold mret, Rand_ret, tick. cbn [fst snd appState].
  now destruct (decide (gameState (appState w) = PLAYING)).
Qed.

Lemma worldStep_app (e : WorldEvent) (w : World) (k : nat) :
  TimersOk (gameState (appState w)) (timers w) ->
  (appState (worldStep source e w k).1, (worldStep source e w k).2)
  = step source (eventOf e) (appState w) k
  \/ worldStep source e w k = (w, k).
Proof.
  intros Hok. destruct e as [| index | id].
  - left. cbn [worldStep]. unfold mbind, mret, Rand_bind, Rand_ret.
    now destruct (step source (eventOf WStart) (appState w) k).
  - left. cbn [worldStep]. unfold mbind, mret, Rand_bind, Rand_ret.
    now destruct (step source (eventOf (WClick index)) (appState w) k).
  - destruct (decide (id ∈ live (timers w))) as [Hin | Hout].
    + left. now apply fire_live.
    + right. cbn [worldStep].
      now destruct (decide (id ∈ live (timers w))).
Qed.

Lemma WorldReachable_app (w : World) (k : nat) :
  WorldReachable source w k -> Reachable source (appState w) k.
Proof.
  induction 1 as [| e w k w' k' Hreach IH Hstep].
  - apply reach_init.
  - pose proof (WorldReachable_timers_ok w k Hreach) as Hok.
    destruct (worldStep_app e w k Hok) as [Heq | Heq]; rewrite Hstep in Heq.
    + cbn [fst snd] in Heq. now apply (reach_step source (eventOf e) (appState w) k).
    + injection Heq as -> ->. exact IH.
Qed.

(** X12. The component with its interval does what the transition
    system does: its sessions are reachable sessions, the firing of a
    live interval is one [Tick], and an interval that has been cleared
    does nothing. Once the game is not playing no firing has any effect,
    and while it is playing the only interval that acts is the one in
    [timerRef]. *)
Theorem interval_fires_as_tick (w : World) (k : nat) (id : positive) :
  WorldReachable source w k ->
  Reachable source (appState w) k
  /\ (id ∈ live (timers w) ->
      gameState (appState w) = PLAYING
      /\ timerRef (timers w) = Some id
      /\ (appState (worldStep source (WFire id) w k).1,
          (worldStep source (WFire id) w k).2)
         = step source Tick (appState w) k)
  /\ (id ∉ live (timers w) -> worldStep source (WFire id) w k = (w, k))
  /\ (gameState (appState w) <> PLAYING -> worldStep source (WFire id) w k = (w, k)).
Proof.
  intros Hreach.
  pose proof (WorldReachable_timers_ok w k Hreach) as Hok.
  split; [now apply WorldReachable_app |].
  assert (Hout : id ∉ live (timers w) -> worldStep source (WFire id) w k = (w, k)).
  { intros Hn. cbn [worldStep]. now destruct (decide (id ∈ live (timers w))). }
  split; [| split; [exact Hout |]].
  - intros Hin. destruct Hok as [Hplay Hidle].
    assert (Hp : gameState (appState w) = PLAYING).
    { destruct (decide (gameState (appState w) = PLAYING)) as [Hp | Hn]; [exact Hp |].
      rewrite (Hidle Hn) in Hin. now apply not_elem_of_empty in Hin. }
    split; [exact Hp |].
    destruct (Hplay Hp) as (id' & Href & Hlive).
    split; [rewrite Hlive in Hin; apply elem_of_singleton in Hin; congruence |].
    apply fire_live; [now split | exact Hin].
  - intros Hn. apply Hout. destruct Hok as [_ Hidle]. rewrite (Hidle Hn).
    apply not_elem_of_empty.
Qed.

Lemma Reachable_run (es : list Event) (st : AppState) (k : nat) :
  Reachable source st k ->
  Reachable source (run source es st k).1 (run source es st k).2.
Proof.
  revert st k. induction es as [| e es IH]; intros st k Hreach; [exact Hreach |].
  rewrite run_cons. apply IH. now apply Reachable_step.
Qed.

Lemma WorldReachable_step (e : WorldEvent) (w : World) (k : nat) :
  WorldReachable source w k ->
  WorldReachable source (worldStep source e w k).1 (worldStep source e w k).2.
Proof.
  intros Hreach. apply (wreach_step source e w k); [exact Hreach |].
  now destruct (worldStep source e w k).
Qed.

End MoreFacts.

(** ** Further sample sessions *)

Example afterGameOver_value :
  (gameState afterGameOver, score afterGameOver, timeLeft afterGameOver,
   bestScore afterGameOver, gridSize afterGameOver)
  = (GAMEOVER, 1, 0, 1, 2).
Proof. vm_compute. reflexivity. Qed.

Lemma afterGameOver_reachable : Reachable zeroSource afterGameOver 10%nat.
Proof.
  exact (Reachable_run zeroSource (Start :: Click 0 :: replicate 17%nat Tick)
           initialState 0%nat (reach_init zeroSource)).
Qed.

Lemma worldAfterStart_reachable : WorldReachable zeroSource worldAfterStart 5%nat.
Proof.
  exact (WorldReachable_step zeroSource WStart initialWorld 0%nat
           (wreach_init zeroSource)).
Qed.

Example worldAfterStart_timers :
  timerRef (timers worldAfterStart) = Some 1%positive
  /\ live (timers worldAfterStart) = {[1%positive]}
  /\ nextId (timers worldAfterStart) = 2%positive.
Proof. vm_compute. repeat split; reflexivity. Qed.

Lemma hsl_inj_witness :
  hsl (mkColor 270 70 45) = hsl (mkColor 270 70 45)
  /\ mkColor 270 70 45 = mkColor 270 70 45.
Proof.
  split; [reflexivity |].
  exact (hsl_inj (mkColor 270 70 45) (mkColor 270 70 45) eq_refl).
Defined.

Lemma click_outside_game_is_inert_witness :
  Reachable zeroSource afterGameOver 10%nat
  /\ gameState afterGameOver <> PLAYING
  /\ step zeroSource (Click 0) afterGameOver 10%nat = (afterGameOver, 10%nat).
Proof.
  assert (Hidle : gameState afterGameOver <> PLAYING) by (vm_compute; discriminate).
  split; [exact afterGameOver_reachable |].
  split; [exact Hidle |].
  exact (click_outside_game_is_inert zeroSource afterGameOver 10%nat 0
           afterGameOver_reachable Hidle).
Defined.

Lemma reachable_session_bounds_witness :
  Reachable zeroSource afterGameOver 10%nat
  /\ (0 <= score afterGameOver
      /\ 0 <= bestScore afterGameOver
      /\ 0 <= timeLeft afterGameOver <= 30
      /\ (gameState afterGameOver = START -> afterGameOver = initialState)
      /\ (gameState afterGameOver = GAMEOVER ->
          timeLeft afterGameOver = 0 /\ score afterGameOver <= bestScore afterGameOver)).
Proof.
  split; [exact afterGameOver_reachable |].
  exact (reachable_session_bounds zeroSource afterGameOver 10%nat
           afterGameOver_reachable).
Defined.

Lemma displayed_round_fits_score_witness :
  Reachable highSource afterStartHigh 5%nat
  /\ gameState afterStartHigh <> START
  /\ (exists base target : Color,
        footerGrid (render afterStartHigh) = gridSizeSpec (score afterStartHigh)
        /\ length (colors afterStartHigh)
           = Z.to_nat (gridSize afterStartHigh * gridSize afterStartHigh)
        /\ 0 <= targetIndex afterStartHigh
             < gridSize afterStartHigh * gridSize afterStartHigh
        /\ colors afterStartHigh !! Z.to_nat (targetIndex afterStartHigh)
           = Some (hsl target)
        /\ (forall i : nat, (i < length (colors afterStartHigh))%nat ->
              i <> Z.to_nat (targetIndex afterStartHigh) ->
              colors afterStartHigh !! i = Some (hsl base))
        /\ hsl target <> hsl base
        /\ h target = h base
        /\ Z.abs (s target - s base) + Z.abs (l target - l base)
           = footerDiff (render afterStartHigh)
        /\ ((Z.abs (s target - s base) = footerDiff (render afterStartHigh)
             /\ l target = l base)
            \/ (Z.abs (l target - l base) = footerDiff (render afterStartHigh)
                /\ s target = s base))
        /\ 1 <= footerDiff (render afterStartHigh) <= 15).
Proof.
  assert (Hns : gameState afterStartHigh <> START) by (vm_compute; discriminate).
  split; [exact afterStartHigh_reachable |].
  split; [exact Hns |].
  exact (displayed_round_fits_score highSource afterStartHigh 5%nat
           afterStartHigh_reachable Hns).
Defined.

Lemma countdown_without_clicks_witness :
  gameState afterStart = PLAYING
  /\ 1 <= timeLeft afterStart
  /\ ((forall n : nat, Z.of_nat n < timeLeft afterStart ->
         let st' := (run zeroSource (replicate n Tick) afterStart 5%nat).1 in
         gameState st' = PLAYING
         /\ timeLeft st' = timeLeft afterStart - Z.of_nat n
         /\ score st' = score afterStart
         /\ currentRound st' = currentRound afterStart
         /\ bestScore st' = bestScore afterStart)
      /\ (let st' := (run zeroSource
                          (replicate (Z.to_nat (timeLeft afterStart)) Tick)
                          afterStart 5%nat).1 in
          gameState st' = GAMEOVER
          /\ timeLeft st' = 0
          /\ score st' = score afterStart
          /\ bestScore st' = Z.max (bestScore afterStart) (score afterStart))).
Proof.
  assert (Ht : 1 <= timeLeft afterStart) by (vm_compute; discriminate).
  split; [reflexivity |].
  split; [exact Ht |].
  exact (countdown_without_clicks zeroSource afterStart 5%nat eq_refl Ht).
Defined.

Lemma score_changes_by_right_click_only_witness :
  Click 0 <> Start
  /\ (let st' := (step zeroSource (Click 0) afterStart 5%nat).1 in
      score st' = score afterStart
      \/ (Click 0 = Click (targetIndex afterStart)
          /\ gameState afterStart = PLAYING
          /\ score st' = score afterStart + 1)).
Proof.
  assert (Hns : Click 0 <> Start) by discriminate.
  split; [exact Hns |].
  exact (score_changes_by_right_click_only zeroSource (Click 0) afterStart 5%nat Hns).
Defined.

Lemma game_over_panel_witness :
  Reachable zeroSource afterGameOver 10%nat
  /\ ((is_Some (gameOverOverlay (render afterGameOver))
       <-> gameState afterGameOver = GAMEOVER)
      /\ (is_Some (gameOverOverlay (render afterGameOver)) ->
          startOverlay (render afterGameOver) = false)
      /\ (forall p : GameOverPanel,
            gameOverOverlay (render afterGameOver) = Some p ->
            panelScore p = score afterGameOver
            /\ panelScore p <= panelBest p
            /\ panelRank p = getRank (panelScore p)
            /\ 1 <= panelRankNumber p
            /\ 5 * (panelRankNumber p - 1) <= panelScore p < 5 * panelRankNumber p)).
Proof.
  split; [exact afterGameOver_reachable |].
  exact (game_over_panel zeroSource afterGameOver 10%nat afterGameOver_reachable).
Defined.

Lemma rendered_blocks_witness :
  Reachable highSource afterStartHigh 5%nat
  /\ (length (blocks (render afterStartHigh)) = length (colors afterStartHigh)
      /\ NoDup (key <$> blocks (render afterStartHigh))
      /\ (forall (i : nat) (b : Block),
            blocks (render afterStartHigh) !! i = Some b ->
            onClick b = Click (Z.of_nat i)
            /\ colors afterStartHigh !! i = Some (backgroundColor b)
            /\ 0 <= Z.of_nat i < gridSize afterStartHigh * gridSize afterStartHigh)
      /\ (gameState afterStartHigh <> START ->
          exists b : Block,
            blocks (render afterStartHigh) !! Z.to_nat (targetIndex afterStartHigh)
            = Some b
            /\ onClick b = Click (targetIndex afterStartHigh))
      /\ (gameState afterStartHigh = START -> blocks (render afterStartHigh) = [])).
Proof.
  split; [exact afterStartHigh_reachable |].
  exact (rendered_blocks highSource afterStartHigh 5%nat afterStartHigh_reachable).
Defined.

Lemma one_interval_while_playing_witness :
  WorldReachable zeroSource worldAfterStart 5%nat
  /\ ((gameState (appState worldAfterStart) = PLAYING ->
       exists id : positive,
         timerRef (timers worldAfterStart) = Some id
         /\ live (timers worldAfterStart) = {[id]})
      /\ (gameState (appState worldAfterStart) <> PLAYING ->
          live (timers worldAfterStart) = ∅)).
Proof.
  split; [exact worldAfterStart_reachable |].
  exact (one_interval_while_playing zeroSource worldAfterStart 5%nat
           worldAfterStart_reachable).
Defined.

Lemma interval_fires_as_tick_witness :
  WorldReachable zeroSource worldAfterStart 5%nat
  /\ (Reachable zeroSource (appState worldAfterStart) 5%nat
      /\ (1%positive ∈ live (timers worldAfterStart) ->
          gameState (appState worldAfterStart) = PLAYING
          /\ timerRef (timers worldAfterStart) = Some 1%positive
          /\ (appState (worldStep zeroSource (WFire 1) worldAfterStart 5%nat).1,
              (worldStep zeroSource (WFire 1) worldAfterStart 5%nat).2)
             = step zeroSource Tick (appState worldAfterStart) 5%nat)
      /\ (1%positive ∉ live (timers worldAfterStart) ->
          worldStep zeroSource (WFire 1) worldAfterStart 5%nat
          = (worldAfterStart, 5%nat))
      /\ (gameState (appState worldAfterStart) <> PLAYING ->
          worldStep zeroSource (WFire 1) worldAfterStart 5%nat
          = (worldAfterStart, 5%nat))).
Proof.
  split; [exact worldAfterStart_reachable |].
  exact (interval_fires_as_tick zeroSource worldAfterStart 5%nat 1%positive
           worldAfterStart_reachable).
Defined.
